(** * Boids flocking simulation: a shallow embedding of [Boids.py]

    The simulation core of [src/Boids.py] (class [Boid] and the update loop of
    [main]) is embedded as Rocq functions and the properties claimed for it
    are settled.

    Modelling conventions.
    - numpy's [float64] values are idealised as real numbers ([R]); rounding,
      overflow, infinities and NaN are outside the model.  Where a property
      depends on them, [normalize] and [limit] are also given on binary64
      floats ([normalize_f64], [limit_f64]).
    - A numpy division whose divisor is zero (which would produce an
      infinity or a NaN) makes the embedded function return [None]; every
      other path returns [Some].  Totality theorems show where [None] cannot
      happen.
    - The Python list [boids] is the store of agents: a [list Boid].  Object
      identity ([other is self]) is the index in that list, and
      [self.neighbors] holds such indices.
    - The global dictionary [params] is passed explicitly as a [Params]
      record; the drawing code reads the state only and is left out.
    - The sliders and the event loop of [main] are embedded too; events,
      mouse positions and random draws are inputs of the model. *)

From Stdlib Require Import PrimFloat.
From Stdlib Require Import Reals Lra Psatz.
From stdpp Require Import base option list sorting.

Local Open Scope R_scope.

(** Decimal float literals stand for the nearest binary64 value, as in
    Python. *)
Set Warnings "-inexact-float".

(** ** Two-dimensional vectors ([np.array([x, y])]) *)

Record Vec : Type := mkVec { vx : R; vy : R }.

Definition vzero : Vec := mkVec 0 0.

Definition vadd (a b : Vec) : Vec := mkVec (vx a + vx b) (vy a + vy b).
Definition vsub (a b : Vec) : Vec := mkVec (vx a - vx b) (vy a - vy b).
Definition vscale (a : Vec) (k : R) : Vec := mkVec (vx a * k) (vy a * k).

(** [vector / d]; [None] records a division by zero. *)
Definition vdiv (a : Vec) (d : R) : option Vec :=
  if Req_dec_T d 0 then None else Some (mkVec (vx a / d) (vy a / d)).

(** [np.linalg.norm] of a two-element array. *)
Definition norm (a : Vec) : R := sqrt (vx a * vx a + vy a * vy a).

(** ** Parameters and screen constants *)

Record Params : Type := mkParams {
  max_speed : R;
  perception_radius : R;
  separation_weight : R;
  alignment_weight : R;
  cohesion_weight : R;
  edge_force : R;
  separation_radius : R
}.

Definition default_params : Params :=
  mkParams 4 32 3 2.3 1.73 7.25 30.

(** [param_ranges]: the interval every slider keeps its parameter in. *)
Definition params_in_range (p : Params) : Prop :=
  0.5 <= max_speed p <= 10 /\
  10 <= perception_radius p <= 200 /\
  0.1 <= separation_weight p <= 5 /\
  0.1 <= alignment_weight p <= 5 /\
  0.1 <= cohesion_weight p <= 5 /\
  0.1 <= edge_force p <= 15 /\
  10 <= separation_radius p <= 100.

Definition WIDTH : R := 1200.
Definition HEIGHT : R := 800.

(** ** Agents *)

Record Boid : Type := mkBoid {
  position : Vec;
  velocity : Vec;
  acceleration : Vec;
  neighbors : list nat
}.

Definition set_position (b : Boid) (v : Vec) : Boid :=
  mkBoid v (velocity b) (acceleration b) (neighbors b).
Definition set_velocity (b : Boid) (v : Vec) : Boid :=
  mkBoid (position b) v (acceleration b) (neighbors b).
Definition set_acceleration (b : Boid) (v : Vec) : Boid :=
  mkBoid (position b) (velocity b) v (neighbors b).
Definition set_neighbors (b : Boid) (l : list nat) : Boid :=
  mkBoid (position b) (velocity b) (acceleration b) l.

(** [Boid.normalize] *)
Definition normalize (vector : Vec) : option Vec :=
  let n := norm vector in
  if Rgt_dec n 0 then vdiv vector n else Some vector.

(** [Boid.limit] *)
Definition limit (vector : Vec) (max_value : R) : option Vec :=
  let n := norm vector in
  if Rgt_dec n max_value
  then w ← vdiv vector n; Some (vscale w max_value)
  else Some vector.

(** [Boid.apply_force] *)
Definition apply_force (self : Boid) (force : Vec) : Boid :=
  set_acceleration self (vadd (acceleration self) force).

(** [Boid.handle_boundaries]: four independent tests, in the source's order. *)
Definition margin : R := 50.

Definition handle_boundaries (p : Params) (self : Boid) : Boid :=
  let turn_factor := edge_force p in
  let s1 :=
    if Rlt_dec (vx (position self)) margin
    then set_velocity self
           (mkVec (vx (velocity self) + turn_factor) (vy (velocity self)))
    else self in
  let s2 :=
    if Rgt_dec (vx (position s1)) (WIDTH - margin)
    then set_velocity s1
           (mkVec (vx (velocity s1) - turn_factor) (vy (velocity s1)))
    else s1 in
  let s3 :=
    if Rlt_dec (vy (position s2)) margin
    then set_velocity s2
           (mkVec (vx (velocity s2)) (vy (velocity s2) + turn_factor))
    else s2 in
  if Rgt_dec (vy (position s3)) (HEIGHT - margin)
  then set_velocity s3
         (mkVec (vx (velocity s3)) (vy (velocity s3) - turn_factor))
  else s3.

(** The first half of [Boid.update]: add the acceleration, clamp the speed. *)
Definition clamp_velocity (p : Params) (self : Boid) : option Vec :=
  let v := vadd (velocity self) (acceleration self) in
  let speed := norm v in
  if Rgt_dec speed (max_speed p)
  then w ← vdiv v speed; Some (vscale w (max_speed p))
  else Some v.

(** [Boid.update] *)
Definition update (p : Params) (self : Boid) : option Boid :=
  v ← clamp_velocity p self;
  let s1 := set_velocity self v in
  let s2 := set_position s1 (vadd (position s1) (velocity s1)) in
  let s3 := set_acceleration s2 (mkVec 0 0) in
  Some (handle_boundaries p s3).

(** ** The neighbour scan of [Boid.flock] *)

(** The local variables of [flock] that the loop updates, with
    [self.neighbors]. *)
Record Scan : Type := mkScan {
  nbrs : list nat;
  separation : Vec;
  alignment : Vec;
  cohesion : Vec;
  total_separation : nat;
  total_alignment : nat;
  total_cohesion : nat
}.

Definition scan_init : Scan := mkScan [] vzero vzero vzero 0 0 0.

Definition epsilon : R := 1e-5.

Definition distance_to (self other : Boid) : R :=
  norm (vsub (position self) (position other)).

(** The separation block (lines 116-120). *)
Definition scan_separation (p : Params) (self other : Boid) (acc : Scan)
  : option Scan :=
  let distance := distance_to self other in
  if Rlt_dec distance (separation_radius p)
  then
    diff ← vdiv (vsub (position self) (position other))
                (distance * distance + epsilon);
    Some (mkScan (nbrs acc) (vadd (separation acc) diff) (alignment acc)
                 (cohesion acc) (S (total_separation acc))
                 (total_alignment acc) (total_cohesion acc))
  else Some acc.

(** The loop body for an agent [other] at index [j] that is not [self]. *)
Definition scan_body (p : Params) (self : Boid) (j : nat) (other : Boid)
    (acc : Scan) : option Scan :=
  let distance := distance_to self other in
  if Rlt_dec distance (perception_radius p)
  then
    let acc1 := mkScan (nbrs acc ++ [j]) (separation acc) (alignment acc)
                       (cohesion acc) (total_separation acc)
                       (total_alignment acc) (total_cohesion acc) in
    acc2 ← scan_separation p self other acc1;
    Some (mkScan (nbrs acc2) (separation acc2)
                 (vadd (alignment acc2) (velocity other))
                 (vadd (cohesion acc2) (position other))
                 (total_separation acc2)
                 (S (total_alignment acc2)) (S (total_cohesion acc2)))
  else Some acc.

(** [for other in boids]: [j] is the index of the head of [others]. *)
Fixpoint scan (p : Params) (i : nat) (self : Boid) (j : nat)
    (others : list Boid) (acc : Scan) : option Scan :=
  match others with
  | [] => Some acc
  | other :: rest =>
      acc' ← (if decide (j = i) then Some acc
              else scan_body p self j other acc);
      scan p i self (S j) rest acc'
  end.

(** ** The three steering rules of [Boid.flock] *)

Definition max_force : R := 0.2.

(** The lines shared by the three rules: normalise, scale to the maximum
    speed, subtract the own velocity and clamp.  The result is the sub-force
    before its weight is applied. *)
Definition steer (p : Params) (self : Boid) (desired : Vec) : option Vec :=
  d ← normalize desired;
  limit (vsub (vscale d (max_speed p)) (velocity self)) max_force.

Definition separation_rule (p : Params) (self : Boid) (acc : Scan)
  : option Vec :=
  avg ← vdiv (separation acc) (INR (total_separation acc));
  steer p self avg.

Definition alignment_rule (p : Params) (self : Boid) (acc : Scan)
  : option Vec :=
  avg ← vdiv (alignment acc) (INR (total_alignment acc));
  steer p self avg.

Definition cohesion_rule (p : Params) (self : Boid) (acc : Scan)
  : option Vec :=
  avg ← vdiv (cohesion acc) (INR (total_cohesion acc));
  steer p self (vsub avg (position self)).

(** One guarded rule: [if total > 0: ...; self.apply_force(force * weight)]. *)
Definition apply_rule (total : nat) (rule : option Vec) (weight : R)
    (self : Boid) : option Boid :=
  if decide (0 < total)%nat
  then f ← rule; Some (apply_force self (vscale f weight))
  else Some self.

(** [Boid.flock] for the agent itself: the scan, then the three rules. *)
Definition flock_self (p : Params) (i : nat) (self : Boid)
    (boids : list Boid) : option Boid :=
  let s0 := set_neighbors self [] in
  acc ← scan p i s0 0 boids scan_init;
  let s1 := set_neighbors s0 (nbrs acc) in
  s2 ← apply_rule (total_separation acc) (separation_rule p s1 acc)
                  (separation_weight p) s1;
  s3 ← apply_rule (total_alignment acc) (alignment_rule p s2 acc)
                  (alignment_weight p) s2;
  apply_rule (total_cohesion acc) (cohesion_rule p s3 acc)
             (cohesion_weight p) s3.

(** [boids[i].flock(boids)] on the store.  An index outside the list names
    no agent and leaves the store as it is. *)
Definition flock (p : Params) (i : nat) (boids : list Boid)
  : option (list Boid) :=
  match boids !! i with
  | None => Some boids
  | Some self =>
      self' ← flock_self p i self boids;
      Some (<[i := self']> boids)
  end.

(** [boids[i].update()] on the store. *)
Definition update_at (p : Params) (i : nat) (boids : list Boid)
  : option (list Boid) :=
  match boids !! i with
  | None => Some boids
  | Some self =>
      self' ← update p self;
      Some (<[i := self']> boids)
  end.

(** ** One frame of [main] (lines 389-391)

    [for boid in boids: boid.flock(boids); boid.update()] *)

Definition frame_one (p : Params) (i : nat) (boids : list Boid)
  : option (list Boid) :=
  boids1 ← flock p i boids;
  update_at p i boids1.

Fixpoint frame_loop (p : Params) (order : list nat) (boids : list Boid)
  : option (list Boid) :=
  match order with
  | [] => Some boids
  | i :: rest =>
      boids' ← frame_one p i boids;
      frame_loop p rest boids'
  end.

Definition frame (p : Params) (boids : list Boid) : option (list Boid) :=
  frame_loop p (seq 0 (length boids)) boids.

(** ** Order independence, as the specification words it

    Position and velocity are what the specification compares; a frame run
    on two orderings of the same agents is to give the same agents. *)

Definition kinematics (b : Boid) : Vec * Vec := (position b, velocity b).

Definition order_independent (p : Params) : Prop :=
  forall boids boids' r r' : list Boid,
    boids ≡ₚ boids' ->
    frame p boids = Some r -> frame p boids' = Some r' ->
    map kinematics r ≡ₚ map kinematics r'.

(** ** Two agents used as concrete inputs

    Both fly to the left at the default maximum speed, 33 units apart in the
    middle of the screen: just outside each other's default perception radius
    before the frame, inside it once the right one has moved. *)

Definition boid_a : Boid := mkBoid (mkVec 600 400) (mkVec (-4) 0) (mkVec 0 0) [].
Definition boid_b : Boid := mkBoid (mkVec 633 400) (mkVec (-4) 0) (mkVec 0 0) [].

(** [boid_a] and [boid_b] after an [update] on their own, [boid_a] after a
    [flock] that sees the moved [boid_b] at index 0, and after the [update]
    that follows. *)
Definition boid_a_moved : Boid :=
  mkBoid (mkVec 596 400) (mkVec (-4) 0) (mkVec 0 0) [].
Definition boid_b_moved : Boid :=
  mkBoid (mkVec 629 400) (mkVec (-4) 0) (mkVec 0 0) [].
Definition boid_a_steered : Boid :=
  mkBoid (mkVec 600 400) (mkVec (-4) 0) (mkVec 0.346 0) [0%nat].
Definition boid_a_late : Boid :=
  mkBoid (mkVec 596.346 400) (mkVec (-3.654) 0) (mkVec 0 0) [0%nat].

(** ** Spawning agents ([Boid.__init__], [create_boids])

    The values drawn from [random] are inputs of the model: [rand_x] and
    [rand_y] stand for the two [random.randint] results, [rand_angle] for
    the [random.uniform(0, 2 * math.pi)] result. *)

Record Draw : Type := mkDraw { rand_x : Z; rand_y : Z; rand_angle : R }.

(** [Boid(x, y)], with the angle drawn inside the constructor.  The
    constructor reads the module-level [params]. *)
Definition Boid_init (p : Params) (x y : R) (angle : R) : Boid :=
  mkBoid (mkVec x y)
         (vscale (mkVec (cos angle) (sin angle)) (max_speed p))
         (mkVec 0 0) [].

(** [create_boids(num)]; [draws k] is what the [k]-th constructed agent
    draws. *)
Definition create_boids (p : Params) (num : option nat) (draws : nat -> Draw)
  : list Boid :=
  match num with
  | None => []
  | Some n =>
      map (fun k => Boid_init p (IZR (rand_x (draws k)))
                       (IZR (rand_y (draws k))) (rand_angle (draws k)))
          (seq 0 n)
  end.

(** ** Sliders ([class Slider])

    [pygame.Rect] holds integers.  The label is only drawn and is left out.
    A Python division by zero raises [ZeroDivisionError]; the embedded
    functions return [None] there. *)

Record Slider : Type := mkSlider {
  rect_x : Z;
  rect_y : Z;
  rect_width : Z;
  rect_height : Z;
  min_val : R;
  max_val : R;
  value : R;
  dragging : bool;
  handle_radius : Z;
  handle_x : R
}.

(** Python's [a / b] on numbers. *)
Definition py_div (a b : R) : option R :=
  if Req_dec_T b 0 then None else Some (a / b).

(** [rect.x + (value - min_val) / (max_val - min_val) * rect.width], the
    expression of [Slider.__init__] and of the reset in [main]. *)
Definition handle_of_value (s_rect_x s_rect_width : Z) (s_min s_max v : R)
  : option R :=
  q ← py_div (v - s_min) (s_max - s_min);
  Some (IZR s_rect_x + q * IZR s_rect_width).

(** [pygame.Rect] stores its four fields as 32-bit C integers: an argument
    outside that range wraps around. *)
Definition c_int (z : Z) : Z := ((z + 2147483648) mod 4294967296 - 2147483648)%Z.

(** [Slider.__init__]; the handle is computed from the stored rectangle. *)
Definition Slider_init (x y width height : Z) (s_min s_max initial_val : R)
  : option Slider :=
  hx ← handle_of_value (c_int x) (c_int width) s_min s_max initial_val;
  Some (mkSlider (c_int x) (c_int y) (c_int width) (c_int height)
                 s_min s_max initial_val false 10 hx).

Definition set_dragging (s : Slider) (d : bool) : Slider :=
  mkSlider (rect_x s) (rect_y s) (rect_width s) (rect_height s)
           (min_val s) (max_val s) (value s) d (handle_radius s) (handle_x s).

Definition set_value_handle (s : Slider) (v hx : R) : Slider :=
  mkSlider (rect_x s) (rect_y s) (rect_width s) (rect_height s)
           (min_val s) (max_val s) v (dragging s) (handle_radius s) hx.

(** ** Events

    An event is handled together with what [pygame.mouse.get_pos()] returns
    while it is handled and with the random values a constructor would
    draw. *)

Inductive Key : Type := K_ESCAPE | K_SPACE | K_v | K_c | K_r | K_other.

Inductive Event : Type :=
| QUIT
| KEYDOWN (key : Key)
| MOUSEBUTTONDOWN (button : Z)
| MOUSEBUTTONUP (button : Z)
| MOUSEMOTION
| OTHER_EVENT.

Record Input : Type := mkInput {
  in_event : Event;
  mouse_x : Z;
  mouse_y : Z;
  in_draw : Draw
}.

(** [Slider.handle_event]; the boolean is the return value. *)
Definition Slider_handle_event (s : Slider) (ev : Event) (mx my : Z)
  : option (Slider * bool) :=
  match ev with
  | MOUSEBUTTONDOWN button =>
      if (button =? 1)%Z
      then
        let hy := (rect_y s + rect_height s / 2)%Z in
        if Rle_dec ((IZR mx - handle_x s) * (IZR mx - handle_x s)
                    + (IZR my - IZR hy) * (IZR my - IZR hy))
                   (IZR (handle_radius s * handle_radius s))
        then Some (set_dragging s true, false)
        else Some (s, false)
      else Some (s, false)
  | MOUSEBUTTONUP button =>
      if (button =? 1)%Z
      then Some (set_dragging s false, false)
      else Some (s, false)
  | MOUSEMOTION =>
      if dragging s
      then
        let mx' := Z.max (rect_x s) (Z.min mx (rect_x s + rect_width s)) in
        q ← py_div (IZR (mx' - rect_x s)) (IZR (rect_width s));
        Some (set_value_handle s (min_val s + q * (max_val s - min_val s))
                               (IZR mx'),
              true)
      else Some (s, false)
  | _ => Some (s, false)
  end.

(** [for slider in sliders: if slider.handle_event(event): param_changed =
    True] *)
Fixpoint sliders_handle_event (ev : Event) (mx my : Z) (l : list Slider)
  : option (list Slider * bool) :=
  match l with
  | [] => Some ([], false)
  | s :: rest =>
      r1 ← Slider_handle_event s ev mx my;
      r2 ← sliders_handle_event ev mx my rest;
      Some (fst r1 :: fst r2, snd r1 || snd r2)
  end.

(** The seven assignments [params[...] = sliders[k].value]; a missing
    slider is an [IndexError], here [None]. *)
Definition params_of_sliders (l : list Slider) : option Params :=
  s0 ← l !! 0%nat; s1 ← l !! 1%nat; s2 ← l !! 2%nat; s3 ← l !! 3%nat;
  s4 ← l !! 4%nat; s5 ← l !! 5%nat; s6 ← l !! 6%nat;
  Some (mkParams (value s0) (value s1) (value s2) (value s3) (value s4)
                 (value s5) (value s6)).

(** [list(params.values())] *)
Definition params_values (p : Params) : list R :=
  [max_speed p; perception_radius p; separation_weight p; alignment_weight p;
   cohesion_weight p; edge_force p; separation_radius p].

(** The reset loop [for i, slider in enumerate(sliders)], from index [i]. *)
Fixpoint reset_sliders (vals : list R) (i : nat) (l : list Slider)
  : option (list Slider) :=
  match l with
  | [] => Some []
  | s :: rest =>
      v ← vals !! i;
      hx ← handle_of_value (rect_x s) (rect_width s) (min_val s) (max_val s) v;
      rest' ← reset_sliders vals (S i) rest;
      Some (set_value_handle s v hx :: rest')
  end.

(** ** The state of [main]

    [Boid] reads the module-level dictionary [params]; [main] has a
    parameter of the same name that is bound to that dictionary when the
    program starts ([main(params)]).  [sim_local_params] is [None] while the
    local name is still bound to the module-level dictionary, and [Some d]
    once it is bound to a dictionary [d] of its own. *)

Record Sim : Type := mkSim {
  sim_boids : list Boid;
  sim_module_params : Params;
  sim_local_params : option Params;
  sim_sliders : list Slider;
  sim_running : bool;
  sim_show_visuals : bool
}.

Definition set_sim_boids (st : Sim) (l : list Boid) : Sim :=
  mkSim l (sim_module_params st) (sim_local_params st) (sim_sliders st)
        (sim_running st) (sim_show_visuals st).

Definition set_sim_sliders (st : Sim) (l : list Slider) : Sim :=
  mkSim (sim_boids st) (sim_module_params st) (sim_local_params st) l
        (sim_running st) (sim_show_visuals st).

Definition set_sim_running (st : Sim) (b : bool) : Sim :=
  mkSim (sim_boids st) (sim_module_params st) (sim_local_params st)
        (sim_sliders st) b (sim_show_visuals st).

Definition set_sim_show_visuals (st : Sim) (b : bool) : Sim :=
  mkSim (sim_boids st) (sim_module_params st) (sim_local_params st)
        (sim_sliders st) (sim_running st) b.

(** [params = {...}]: rebinds the local name. *)
Definition rebind_local_params (st : Sim) (d : Params) : Sim :=
  mkSim (sim_boids st) (sim_module_params st) (Some d) (sim_sliders st)
        (sim_running st) (sim_show_visuals st).

(** [params[key] = ...] for the seven keys: writes the dictionary the local
    name is bound to. *)
Definition write_local_params (st : Sim) (d : Params) : Sim :=
  match sim_local_params st with
  | None =>
      mkSim (sim_boids st) d None (sim_sliders st) (sim_running st)
            (sim_show_visuals st)
  | Some _ => rebind_local_params st d
  end.

(** The dictionary the local name [params] is bound to. *)
Definition local_params (st : Sim) : Params :=
  match sim_local_params st with
  | None => sim_module_params st
  | Some d => d
  end.

(** The [if]/[elif] chain on the event type (lines 330-367). *)
Definition handle_key_and_click (i : Input) (st : Sim) : option Sim :=
  match in_event i with
  | QUIT => Some (set_sim_running st false)
  | KEYDOWN K_ESCAPE => Some (set_sim_running st false)
  | KEYDOWN K_SPACE =>
      Some (set_sim_boids st
              (sim_boids st ++
               [Boid_init (sim_module_params st)
                          (IZR (rand_x (in_draw i))) (IZR (rand_y (in_draw i)))
                          (rand_angle (in_draw i))]))
  | KEYDOWN K_v => Some (set_sim_show_visuals st (negb (sim_show_visuals st)))
  | KEYDOWN K_c => Some (set_sim_boids st [])
  | KEYDOWN K_r =>
      let st1 := rebind_local_params st default_params in
      l ← reset_sliders (params_values (local_params st1)) 0 (sim_sliders st1);
      Some (set_sim_sliders st1 l)
  | KEYDOWN K_other => Some st
  | MOUSEBUTTONDOWN button =>
      if (button =? 1)%Z
      then
        if (mouse_y i >? 500)%Z || (mouse_x i >? 350)%Z
        then Some (set_sim_boids st
                     (sim_boids st ++
                      [Boid_init (sim_module_params st)
                                 (IZR (mouse_x i)) (IZR (mouse_y i))
                                 (rand_angle (in_draw i))]))
        else Some st
      else Some st
  | _ => Some st
  end.

(** The body of [for event in pygame.event.get()] (lines 329-383). *)
Definition handle_input (i : Input) (st : Sim) : option Sim :=
  st1 ← handle_key_and_click i st;
  match sliders_handle_event (in_event i) (mouse_x i) (mouse_y i)
          (sim_sliders st1) with
  | None => None
  | Some (l, param_changed) =>
      let st2 := set_sim_sliders st1 l in
      if param_changed
      then d ← params_of_sliders (sim_sliders st2);
           Some (write_local_params st2 d)
      else Some st2
  end.

Fixpoint handle_inputs (l : list Input) (st : Sim) : option Sim :=
  match l with
  | [] => Some st
  | i :: rest => st' ← handle_input i st; handle_inputs rest st'
  end.

(** One iteration of [while running]: the events, then the agents. *)
Definition main_iteration (events : list Input) (st : Sim) : option Sim :=
  st1 ← handle_inputs events st;
  l ← frame (sim_module_params st1) (sim_boids st1);
  Some (set_sim_boids st1 l).

(** [while running], for the event batches of as many iterations as the
    list is long. *)
Fixpoint main_loop (batches : list (list Input)) (st : Sim) : option Sim :=
  match batches with
  | [] => Some st
  | events :: rest =>
      if sim_running st
      then st' ← main_iteration events st; main_loop rest st'
      else Some st
  end.

(** The sliders [main] creates, from [param_ranges] and the parameters it
    is called with. *)
Definition main_sliders (p : Params) : option (list Slider) :=
  s0 ← Slider_init 20 100 300 15 0.5 10 (max_speed p);
  s1 ← Slider_init 20 160 300 15 10 200 (perception_radius p);
  s2 ← Slider_init 20 220 300 15 0.1 5 (separation_weight p);
  s3 ← Slider_init 20 280 300 15 0.1 5 (alignment_weight p);
  s4 ← Slider_init 20 340 300 15 0.1 5 (cohesion_weight p);
  s5 ← Slider_init 20 400 300 15 0.1 15 (edge_force p);
  s6 ← Slider_init 20 460 300 15 10 100 (separation_radius p);
  Some [s0; s1; s2; s3; s4; s5; s6].

(** The state when the loop is entered: [main(params)] with the module-level
    defaults, [create_boids(None)]. *)
Definition main_init (draws : nat -> Draw) : option Sim :=
  l ← main_sliders default_params;
  Some (mkSim (create_boids default_params None draws) default_params None l
              true true).

(** ** Well-formed sliders and states

    [param_ranges], in the order of the keys of [params] (which is the order
    of the sliders of [main]). *)
Definition param_ranges : list (R * R) :=
  [(0.5, 10); (10, 200); (0.1, 5); (0.1, 5); (0.1, 5); (0.1, 15); (10, 100)].

(** A slider with a track of positive width, a range that is not empty, a
    value inside its range and a handle on its track. *)
Definition slider_ok (s : Slider) : Prop :=
  (0 < rect_width s)%Z /\ min_val s < max_val s /\
  min_val s <= value s <= max_val s /\
  IZR (rect_x s) <= handle_x s <= IZR (rect_x s + rect_width s).

(** A slider of [main]: well formed, with the range [r] and the geometry
    [main] gives its sliders (the last one is at [y = 460]). *)
Definition slider_for (s : Slider) (r : R * R) : Prop :=
  slider_ok s /\ min_val s = fst r /\ max_val s = snd r /\
  rect_x s = 20%Z /\ rect_width s = 300%Z /\ rect_height s = 15%Z /\
  (0 <= rect_y s <= 460)%Z /\ handle_radius s = 10%Z.

(** What [main] keeps true of its state. *)
Definition sim_ok (st : Sim) : Prop :=
  params_in_range (sim_module_params st) /\
  Forall2 slider_for (sim_sliders st) param_ranges.

(** ** [normalize] and [limit] on binary64 floats

    The same two functions with numpy's arithmetic: [np.linalg.norm] of a
    one-dimensional array is the square root of its dot product with itself,
    and a division by zero gives an infinity or a NaN instead of raising. *)

Record FVec : Type := mkFVec { fx : float; fy : float }.

Definition norm_f64 (a : FVec) : float :=
  PrimFloat.sqrt (fx a * fx a + fy a * fy a)%float.

Definition normalize_f64 (vector : FVec) : FVec :=
  let n := norm_f64 vector in
  if (0 <? n)%float
  then mkFVec (fx vector / n)%float (fy vector / n)%float
  else vector.

Definition limit_f64 (vector : FVec) (max_value : float) : FVec :=
  let n := norm_f64 vector in
  if (max_value <? n)%float
  then mkFVec (fx vector / n * max_value)%float
              (fy vector / n * max_value)%float
  else vector.

(** ** What [flock] is to compute, in the words of the specification

    The agents other than the one at index [i], with their indices; those
    of them closer than the perception radius; those of the perceived ones
    closer than the separation radius. *)

Definition within (radius : R) (self other : Boid) : bool :=
  if Rlt_dec (distance_to self other) radius then true else false.

Definition others_from (i j : nat) (others : list Boid) : list (nat * Boid) :=
  filter (fun jo => fst jo <> i) (zip (seq j (length others)) others).

Definition perceived_from (p : Params) (i : nat) (self : Boid) (j : nat)
    (others : list Boid) : list (nat * Boid) :=
  filter (fun jo => within (perception_radius p) self (snd jo) = true)
         (others_from i j others).

Definition separating_from (p : Params) (i : nat) (self : Boid) (j : nat)
    (others : list Boid) : list (nat * Boid) :=
  filter (fun jo => within (separation_radius p) self (snd jo) = true)
         (perceived_from p i self j others).

Definition perceived_others (p : Params) (i : nat) (self : Boid)
    (boids : list Boid) : list (nat * Boid) :=
  perceived_from p i self 0 boids.

Definition separating_others (p : Params) (i : nat) (self : Boid)
    (boids : list Boid) : list (nat * Boid) :=
  separating_from p i self 0 boids.

(** [(self.position - other.position) / (distance² + 1e-5)] *)
Definition separation_term (self other : Boid) : Vec :=
  vscale (vsub (position self) (position other))
         (/ (distance_to self other * distance_to self other + 1e-5)).

(** The sum of a list of vectors, added from the left starting at zero. *)
Definition vsum (l : list Vec) : Vec := foldl vadd vzero l.

(** [f] is the sub-force of a rule that had [count] contributors and whose
    averaged vector is [desired]: zero without contributors, otherwise
    [limit(normalize(desired) * max_speed - velocity, 0.2)]. *)
Definition is_rule_force (p : Params) (self : Boid) (count : nat)
    (desired f : Vec) : Prop :=
  (count = 0%nat -> f = vzero) /\
  ((0 < count)%nat ->
   exists u, normalize desired = Some u /\
             limit (vsub (vscale u (max_speed p)) (velocity self)) 0.2
             = Some f).

(** ** Proof automation for comparisons of concrete reals *)

(** Settles every comparison the goal branches on, by linear arithmetic. *)
Ltac decide_reals :=
  repeat match goal with
         | |- context [Rlt_dec ?a ?b] =>
             destruct (Rlt_dec a b); [try (exfalso; lra) | try (exfalso; lra)]
         | |- context [Rgt_dec ?a ?b] =>
             destruct (Rgt_dec a b); [try (exfalso; lra) | try (exfalso; lra)]
         | |- context [Req_dec_T ?a ?b] =>
             destruct (Req_dec_T a b); [try (exfalso; lra) | try (exfalso; lra)]
         end.

(** A linear fact, or one side of a disjunction of linear facts. *)
Ltac real_side := first [lra | left; lra | right; lra].

(** Takes apart a list of sliders related to a list of known length. *)
Ltac invert_sliders H :=
  repeat match type of H with
         | Forall2 _ _ (_ :: _) =>
             let s := fresh "s" in
             let l := fresh "l" in
             let Hs := fresh "Hs" in
             let Hl := fresh "Hl" in
             apply Forall2_cons_inv_r in H;
             destruct H as (s & l & Hs & Hl & ->); rename Hl into H
         | Forall2 _ _ [] => apply Forall2_nil_inv_r in H; subst
         end.

(** ** Facts about vectors *)

Lemma vec_eq (a b : Vec) : vx a = vx b -> vy a = vy b -> a = b.
Proof. destruct a, b; simpl; intros -> ->; reflexivity. Qed.

Lemma sum_squares_nonneg (a : Vec) : 0 <= vx a * vx a + vy a * vy a.
Proof. nra. Qed.

Lemma norm_nonneg (a : Vec) : 0 <= norm a.
Proof. apply sqrt_pos. Qed.

Lemma norm_sqr (a : Vec) : norm a * norm a = vx a * vx a + vy a * vy a.
Proof. apply sqrt_sqrt, sum_squares_nonneg. Qed.

(** The way norms of concrete vectors are evaluated. *)
Lemma norm_eq (a : Vec) (r : R) :
  0 <= r -> vx a * vx a + vy a * vy a = r * r -> norm a = r.
Proof. intros Hr E. unfold norm. rewrite E. apply sqrt_square, Hr. Qed.

Lemma norm_vzero : norm vzero = 0.
Proof. apply norm_eq; simpl; lra. Qed.

Lemma norm_zero_inv (a : Vec) : norm a = 0 -> a = vzero.
Proof.
  intros E. pose proof (norm_sqr a) as S. rewrite E in S.
  apply vec_eq; simpl; nra.
Qed.

Lemma norm_pos (a : Vec) : a <> vzero -> 0 < norm a.
Proof.
  intros N. destruct (norm_nonneg a) as [L | E]; [exact L |].
  exfalso. apply N, norm_zero_inv. symmetry. exact E.
Qed.

Lemma norm_vscale (a : Vec) (k : R) : 0 <= k -> norm (vscale a k) = norm a * k.
Proof.
  intros Hk. apply norm_eq.
  - apply Rmult_le_pos; [apply norm_nonneg | exact Hk].
  - simpl. pose proof (norm_sqr a). nra.
Qed.

Lemma vdiv_Some (a : Vec) (d : R) :
  d <> 0 -> vdiv a d = Some (vscale a (/ d)).
Proof.
  intros N. unfold vdiv. destruct (Req_dec_T d 0) as [E | _]; [contradiction |].
  reflexivity.
Qed.

(** Rescaling a vector longer than zero to a given length. *)
Lemma rescale_Some (a : Vec) (m : R) :
  0 < norm a ->
  (w ← vdiv a (norm a); Some (vscale w m)) = Some (vscale a (/ norm a * m)).
Proof.
  intros L. rewrite vdiv_Some by lra. simpl. f_equal.
  apply vec_eq; simpl; ring.
Qed.

Lemma norm_rescale (a : Vec) (m : R) :
  0 < norm a -> 0 <= m -> norm (vscale a (/ norm a * m)) = m.
Proof.
  intros L Hm. rewrite norm_vscale.
  - field. lra.
  - apply Rmult_le_pos; [| exact Hm]. left. apply Rinv_0_lt_compat, L.
Qed.

(** ** [normalize] and [limit] *)

Lemma normalize_total (v : Vec) : exists u, normalize v = Some u.
Proof.
  unfold normalize. destruct (Rgt_dec (norm v) 0) as [G | _].
  - rewrite vdiv_Some by lra. eauto.
  - eauto.
Qed.

Lemma normalize_vzero : normalize vzero = Some vzero.
Proof.
  unfold normalize. rewrite norm_vzero.
  destruct (Rgt_dec 0 0) as [G | _]; [lra | reflexivity].
Qed.

Lemma limit_le (v : Vec) (m : R) : norm v <= m -> limit v m = Some v.
Proof.
  intros L. unfold limit. destruct (Rgt_dec (norm v) m) as [G | _]; [lra |].
  reflexivity.
Qed.

Lemma limit_gt (v : Vec) (m : R) :
  0 <= m -> norm v > m -> limit v m = Some (vscale v (/ norm v * m)).
Proof.
  intros Hm G. unfold limit. destruct (Rgt_dec (norm v) m) as [_ | N]; [| lra].
  apply rescale_Some. lra.
Qed.

Lemma limit_bound (v : Vec) (m : R) :
  0 <= m -> exists w, limit v m = Some w /\ norm w <= m.
Proof.
  intros Hm. destruct (Rle_dec (norm v) m) as [L | N].
  - exists v. split; [apply limit_le, L | exact L].
  - exists (vscale v (/ norm v * m)). split.
    + apply limit_gt; lra.
    + rewrite norm_rescale; lra.
Qed.

(** C4, as the code has it.  [normalize] returns the zero vector for the
    zero vector, without dividing.  For a vector whose length is between
    1e-150 and 1e150 it returns a positive multiple of its argument whose
    magnitude is 1 in exact arithmetic (1 up to rounding in float64).  In
    float64 every vector whose computed norm is not above 0 is returned as
    it is: the zero vector, and any vector whose squared length underflows. *)
Theorem normalize_safe (v : Vec) (w : FVec) :
  (v = vzero -> normalize v = Some vzero) /\
  (1e-150 <= norm v <= 1e150 ->
   exists u, normalize v = Some u /\ norm u = 1 /\
             exists k, 0 < k /\ u = vscale v k) /\
  ((0 <? norm_f64 w)%float = false -> normalize_f64 w = w) /\
  normalize_f64 (mkFVec 0%float 0%float) = mkFVec 0%float 0%float.
Proof.
  split; [intros ->; apply normalize_vzero |]. split.
  - intros [Hlo _].
    assert (L : 0 < norm v) by lra.
    exists (vscale v (/ norm v)). unfold normalize.
    destruct (Rgt_dec (norm v) 0) as [_ | G]; [| lra].
    split; [apply vdiv_Some; lra |]. split.
    + rewrite norm_vscale; [field; lra |].
      left. apply Rinv_0_lt_compat, L.
    + exists (/ norm v). split; [apply Rinv_0_lt_compat, L | reflexivity].
  - split; [| reflexivity].
    intros H. unfold normalize_f64. rewrite H. reflexivity.
Qed.

Lemma normalize_safe_witness :
  1e-150 <= norm (mkVec 3 4) <= 1e150 /\
  (exists u, normalize (mkVec 3 4) = Some u /\ norm u = 1 /\
             exists k, 0 < k /\ u = vscale (mkVec 3 4) k) /\
  (0 <? norm_f64 (mkFVec 1e-200%float 0%float))%float = false /\
  normalize_f64 (mkFVec 1e-200%float 0%float)
  = mkFVec 1e-200%float 0%float.
Proof.
  assert (N : norm (mkVec 3 4) = 5) by (apply norm_eq; simpl; lra).
  assert (H : 1e-150 <= norm (mkVec 3 4) <= 1e150) by (rewrite N; lra).
  assert (F : (0 <? norm_f64 (mkFVec 1e-200%float 0%float))%float = false)
    by reflexivity.
  destruct (normalize_safe (mkVec 3 4) (mkFVec 1e-200%float 0%float))
    as (_ & Hr & Hf & _).
  split; [exact H |]. split; [exact (Hr H) |].
  split; [exact F | exact (Hf F)].
Defined.

(** C4, as the claim states it, fails in float64: the nonzero finite vector
    [1e-200, 0] has the computed norm 0 and is returned unchanged, [3e200,
    4e200] has the computed norm infinity and is returned as the zero
    vector, and the result for [1, 1] has the computed magnitude
    0.99999999999999989. *)
Lemma normalize_unit_counterexample :
  is_finite 1e-200%float = true /\ is_zero 1e-200%float = false /\
  normalize_f64 (mkFVec 1e-200%float 0%float)
  = mkFVec 1e-200%float 0%float /\
  norm_f64 (normalize_f64 (mkFVec 1e-200%float 0%float)) = 0%float /\
  (norm_f64 (normalize_f64 (mkFVec 1e-200%float 0%float)) =? 1)%float
  = false /\
  is_finite 3e200%float = true /\ is_finite 4e200%float = true /\
  normalize_f64 (mkFVec 3e200%float 4e200%float) = mkFVec 0%float 0%float /\
  (norm_f64 (normalize_f64 (mkFVec 1%float 1%float)) =? 1)%float = false.
Proof. repeat split; reflexivity. Qed.

(** C10, as the code has it.  For a bound between 1e-150 and 1e150 and a
    vector no longer than 1e150, in exact arithmetic (which float64 follows
    up to rounding): [limit] returns a vector no longer than the bound
    unchanged, rescales a longer one to the length of the bound along the
    same direction, never lengthens its argument, and is idempotent.  In
    float64 every vector whose computed norm is not above the bound is
    returned as it is. *)
Theorem limit_clamps (v : Vec) (m : R) (w : FVec) (b : float) :
  1e-150 <= m <= 1e150 -> norm v <= 1e150 ->
  (norm v <= m -> limit v m = Some v) /\
  (norm v > m ->
   exists u, limit v m = Some u /\ norm u = m /\
             exists k, 0 < k /\ u = vscale v k) /\
  (exists u, limit v m = Some u /\ norm u <= norm v /\ limit u m = Some u) /\
  ((b <? norm_f64 w)%float = false -> limit_f64 w b = w).
Proof.
  intros [Hlo _] _. assert (Hm : 0 < m) by lra.
  split; [apply limit_le |]. split; [| split].
  - intros G. exists (vscale v (/ norm v * m)).
    split; [apply limit_gt; lra |]. split.
    + apply norm_rescale; lra.
    + exists (/ norm v * m). split; [| reflexivity].
      apply Rmult_lt_0_compat; [apply Rinv_0_lt_compat; lra | exact Hm].
  - destruct (Rle_dec (norm v) m) as [L | N].
    + exists v. rewrite limit_le by exact L. split; [reflexivity |].
      split; [lra | reflexivity].
    + exists (vscale v (/ norm v * m)).
      assert (E : norm (vscale v (/ norm v * m)) = m)
        by (apply norm_rescale; lra).
      split; [apply limit_gt; lra |]. split; [lra |].
      apply limit_le. lra.
  - intros H. unfold limit_f64. rewrite H. reflexivity.
Qed.

Lemma limit_clamps_witness :
  1e-150 <= 5 <= 1e150 /\ norm (mkVec 6 8) <= 1e150 /\
  (norm (mkVec 6 8) > 5 ->
   exists u, limit (mkVec 6 8) 5 = Some u /\ norm u = 5 /\
             exists k, 0 < k /\ u = vscale (mkVec 6 8) k) /\
  (exists u, limit (mkVec 6 8) 5 = Some u /\ norm u <= norm (mkVec 6 8) /\
             limit u 5 = Some u) /\
  limit_f64 (mkFVec 3%float 4%float) 5%float = mkFVec 3%float 4%float.
Proof.
  assert (N : norm (mkVec 6 8) = 10) by (apply norm_eq; simpl; lra).
  assert (H : 1e-150 <= 5 <= 1e150) by lra.
  assert (H' : norm (mkVec 6 8) <= 1e150) by (rewrite N; lra).
  destruct (limit_clamps (mkVec 6 8) 5 (mkFVec 3%float 4%float) 5%float H H')
    as (_ & Hg & Hi & Hf).
  split; [exact H |]. split; [exact H' |]. split; [exact Hg |].
  split; [exact Hi |]. apply Hf. reflexivity.
Defined.

(** C10, as the claim states it, fails in float64: [3e200, 4e200] is longer
    than 5 and is returned as the zero vector; [1e-200, 0] is longer than
    1e-250 and is returned unchanged; the result for [8, 10] and the bound
    0.2 has the computed magnitude 0.20000000000000004, above the bound, and
    a second application changes it. *)
Lemma limit_clamps_counterexample :
  limit_f64 (mkFVec 3e200%float 4e200%float) 5%float
  = mkFVec 0%float 0%float /\
  (1e-250 <? 1e-200)%float = true /\
  limit_f64 (mkFVec 1e-200%float 0%float) 1e-250%float
  = mkFVec 1e-200%float 0%float /\
  (0.2 <? norm_f64 (limit_f64 (mkFVec 8%float 10%float) 0.2%float))%float
  = true /\
  (fx (limit_f64 (limit_f64 (mkFVec 8%float 10%float) 0.2%float) 0.2%float)
   =? fx (limit_f64 (mkFVec 8%float 10%float) 0.2%float))%float = false.
Proof. repeat split; reflexivity. Qed.

(** ** Boundary handling *)

Lemma handle_boundaries_frame (p : Params) (b : Boid) :
  position (handle_boundaries p b) = position b /\
  acceleration (handle_boundaries p b) = acceleration b /\
  neighbors (handle_boundaries p b) = neighbors b.
Proof.
  unfold handle_boundaries.
  repeat (match goal with
          | |- context [Rlt_dec ?a ?b] => destruct (Rlt_dec a b)
          | |- context [Rgt_dec ?a ?b] => destruct (Rgt_dec a b)
          end; simpl); auto.
Qed.

Lemma handle_boundaries_velocity (p : Params) (b : Boid) :
  velocity (handle_boundaries p b) =
  mkVec (vx (velocity b)
         + (if Rlt_dec (vx (position b)) margin then edge_force p else 0)
         - (if Rgt_dec (vx (position b)) (WIDTH - margin)
            then edge_force p else 0))
        (vy (velocity b)
         + (if Rlt_dec (vy (position b)) margin then edge_force p else 0)
         - (if Rgt_dec (vy (position b)) (HEIGHT - margin)
            then edge_force p else 0)).
Proof.
  unfold handle_boundaries.
  destruct (Rlt_dec (vx (position b)) margin); simpl;
    destruct (Rgt_dec (vx (position b)) (WIDTH - margin)); simpl;
    destruct (Rlt_dec (vy (position b)) margin); simpl;
    destruct (Rgt_dec (vy (position b)) (HEIGHT - margin)); simpl;
    apply vec_eq; simpl; lra.
Qed.

(** C9. One pass of [handle_boundaries] adds [edge_force] to the x velocity
    when x < 50, subtracts it when x > WIDTH - 50, leaves it alone in between,
    and does the same on the y axis against HEIGHT; the position is not
    touched.  At x = 10 with an edge force of 7.25 the x velocity gains
    7.25. *)
Theorem handle_boundaries_nudge (p : Params) (b : Boid) :
  let b' := handle_boundaries p b in
  position b' = position b /\
  (vx (position b) < 50 ->
   vx (velocity b') = vx (velocity b) + edge_force p) /\
  (vx (position b) > WIDTH - 50 ->
   vx (velocity b') = vx (velocity b) - edge_force p) /\
  (50 <= vx (position b) <= WIDTH - 50 ->
   vx (velocity b') = vx (velocity b)) /\
  (vy (position b) < 50 ->
   vy (velocity b') = vy (velocity b) + edge_force p) /\
  (vy (position b) > HEIGHT - 50 ->
   vy (velocity b') = vy (velocity b) - edge_force p) /\
  (50 <= vy (position b) <= HEIGHT - 50 ->
   vy (velocity b') = vy (velocity b)) /\
  (vx (position b) = 10 -> edge_force p = 7.25 ->
   vx (velocity b') = vx (velocity b) + 7.25).
Proof.
  intros b'. subst b'.
  split; [apply handle_boundaries_frame |].
  rewrite handle_boundaries_velocity. simpl.
  unfold margin, WIDTH, HEIGHT.
  destruct (Rlt_dec (vx (position b)) 50);
    destruct (Rgt_dec (vx (position b)) (1200 - 50));
    destruct (Rlt_dec (vy (position b)) 50);
    destruct (Rgt_dec (vy (position b)) (800 - 50));
    repeat split; intros; lra.
Qed.

Lemma handle_boundaries_nudge_witness :
  let b := mkBoid (mkVec 10 400) (mkVec 1 2) vzero [] in
  let b' := handle_boundaries default_params b in
  vx (position b) = 10 /\ edge_force default_params = 7.25 /\
  vx (velocity b') = 1 + 7.25 /\ position b' = mkVec 10 400.
Proof.
  intros b b'.
  assert (Hx : vx (position b) = 10) by reflexivity.
  assert (He : edge_force default_params = 7.25) by reflexivity.
  pose proof (handle_boundaries_nudge default_params b) as H.
  destruct H as (Hp & _ & _ & _ & _ & _ & _ & H10).
  split; [exact Hx |]. split; [exact He |].
  split; [exact (H10 Hx He) | exact Hp].
Defined.

(** ** The integration step [update] *)

Lemma clamp_velocity_bound (p : Params) (b : Boid) :
  0 <= max_speed p ->
  exists v, clamp_velocity p b = Some v /\ norm v <= max_speed p.
Proof.
  intros Hm. unfold clamp_velocity. fold (limit (vadd (velocity b) (acceleration b)) (max_speed p)).
  apply limit_bound, Hm.
Qed.

Lemma update_unfold (p : Params) (b : Boid) (v : Vec) :
  clamp_velocity p b = Some v ->
  update p b =
  Some (handle_boundaries p
          (mkBoid (vadd (position b) v) v (mkVec 0 0) (neighbors b))).
Proof. intros E. unfold update. rewrite E. reflexivity. Qed.




(** ** The neighbour scan never divides by zero *)

Lemma epsilon_pos : 0 < epsilon.
Proof. unfold epsilon. lra. Qed.

Lemma separation_denominator_pos (d : R) : 0 < d * d + epsilon.
Proof. pose proof epsilon_pos. nra. Qed.

Lemma scan_separation_Some (p : Params) (self other : Boid) (acc : Scan) :
  scan_separation p self other acc =
  Some (if Rlt_dec (distance_to self other) (separation_radius p)
        then mkScan (nbrs acc)
               (vadd (separation acc)
                  (vscale (vsub (position self) (position other))
                     (/ (distance_to self other * distance_to self other
                         + epsilon))))
               (alignment acc) (cohesion acc) (S (total_separation acc))
               (total_alignment acc) (total_cohesion acc)
        else acc).
Proof.
  unfold scan_separation.
  destruct (Rlt_dec (distance_to self other) (separation_radius p)) as [L | N];
    [| reflexivity].
  rewrite vdiv_Some; [reflexivity |].
  pose proof (separation_denominator_pos (distance_to self other)). lra.
Qed.

Lemma scan_body_total (p : Params) (self : Boid) (j : nat) (other : Boid)
    (acc : Scan) :
  exists acc', scan_body p self j other acc = Some acc'.
Proof.
  unfold scan_body.
  destruct (Rlt_dec (distance_to self other) (perception_radius p));
    [| eauto].
  rewrite scan_separation_Some. simpl. eauto.
Qed.

Lemma scan_total (p : Params) (i : nat) (self : Boid) (others : list Boid) :
  forall j acc, exists acc', scan p i self j others acc = Some acc'.
Proof.
  induction others as [| other rest IH]; intros j acc; simpl; [eauto |].
  destruct (decide (j = i)) as [_ | _]; simpl; [apply IH |].
  destruct (scan_body_total p self j other acc) as (acc1 & E).
  rewrite E. simpl. apply IH.
Qed.

(** ** The steering rules *)

Lemma max_force_pos : 0 < max_force.
Proof. unfold max_force. lra. Qed.

Lemma steer_bound (p : Params) (self : Boid) (desired : Vec) :
  exists f, steer p self desired = Some f /\ norm f <= max_force.
Proof.
  unfold steer. destruct (normalize_total desired) as (d & E).
  rewrite E. simpl. apply limit_bound. pose proof max_force_pos. lra.
Qed.

Lemma steer_ext (p : Params) (a b : Boid) (desired : Vec) :
  velocity a = velocity b -> steer p a desired = steer p b desired.
Proof. intros E. unfold steer. rewrite E. reflexivity. Qed.

Lemma INR_pos_neq (n : nat) : (0 < n)%nat -> INR n <> 0.
Proof. intros L. apply not_0_INR. lia. Qed.

Lemma separation_rule_bound (p : Params) (self : Boid) (acc : Scan) :
  (0 < total_separation acc)%nat ->
  exists f, separation_rule p self acc = Some f /\ norm f <= max_force.
Proof.
  intros L. unfold separation_rule.
  rewrite vdiv_Some by (apply INR_pos_neq, L). simpl. apply steer_bound.
Qed.

Lemma alignment_rule_bound (p : Params) (self : Boid) (acc : Scan) :
  (0 < total_alignment acc)%nat ->
  exists f, alignment_rule p self acc = Some f /\ norm f <= max_force.
Proof.
  intros L. unfold alignment_rule.
  rewrite vdiv_Some by (apply INR_pos_neq, L). simpl. apply steer_bound.
Qed.

Lemma cohesion_rule_bound (p : Params) (self : Boid) (acc : Scan) :
  (0 < total_cohesion acc)%nat ->
  exists f, cohesion_rule p self acc = Some f /\ norm f <= max_force.
Proof.
  intros L. unfold cohesion_rule.
  rewrite vdiv_Some by (apply INR_pos_neq, L). simpl. apply steer_bound.
Qed.

Lemma separation_rule_ext (p : Params) (a b : Boid) (acc : Scan) :
  velocity a = velocity b ->
  separation_rule p a acc = separation_rule p b acc.
Proof.
  intros E. unfold separation_rule.
  destruct (vdiv _ _); simpl; [apply steer_ext, E | reflexivity].
Qed.

Lemma alignment_rule_ext (p : Params) (a b : Boid) (acc : Scan) :
  velocity a = velocity b ->
  alignment_rule p a acc = alignment_rule p b acc.
Proof.
  intros E. unfold alignment_rule.
  destruct (vdiv _ _); simpl; [apply steer_ext, E | reflexivity].
Qed.

Lemma cohesion_rule_ext (p : Params) (a b : Boid) (acc : Scan) :
  velocity a = velocity b -> position a = position b ->
  cohesion_rule p a acc = cohesion_rule p b acc.
Proof.
  intros E Ep. unfold cohesion_rule. rewrite Ep.
  destruct (vdiv _ _); simpl; [apply steer_ext, E | reflexivity].
Qed.

(** What one guarded rule does to the agent: it adds [force * weight] to the
    acceleration, where [force] is the rule's result when the guard holds
    and the zero vector otherwise. *)
Lemma apply_rule_spec (total : nat) (rule : option Vec) (w : R) (s : Boid) :
  ((0 < total)%nat -> exists f, rule = Some f /\ norm f <= max_force) ->
  exists f s',
    apply_rule total rule w s = Some s' /\
    norm f <= max_force /\
    (if decide (0 < total)%nat then rule = Some f else f = vzero) /\
    position s' = position s /\ velocity s' = velocity s /\
    neighbors s' = neighbors s /\
    acceleration s' = vadd (acceleration s) (vscale f w).
Proof.
  intros H. unfold apply_rule.
  destruct (decide (0 < total)%nat) as [L | N].
  - destruct (H L) as (f & E & B). rewrite E. simpl.
    exists f. eexists. split; [reflexivity |]. repeat split; auto.
  - exists vzero. eexists. split; [reflexivity |].
    split; [rewrite norm_vzero; pose proof max_force_pos; lra |].
    repeat split; auto.
    apply vec_eq; simpl; lra.
Qed.

(** [flock] for one agent always returns; it leaves position and velocity
    alone, stores the scanned neighbours and adds the three weighted
    sub-forces to the acceleration. *)
Lemma flock_self_spec (p : Params) (i : nat) (self : Boid)
    (boids : list Boid) :
  exists acc fs fa fc s',
    scan p i (set_neighbors self []) 0 boids scan_init = Some acc /\
    flock_self p i self boids = Some s' /\
    (norm fs <= max_force /\ norm fa <= max_force /\ norm fc <= max_force) /\
    (if decide (0 < total_separation acc)%nat
     then separation_rule p self acc = Some fs else fs = vzero) /\
    (if decide (0 < total_alignment acc)%nat
     then alignment_rule p self acc = Some fa else fa = vzero) /\
    (if decide (0 < total_cohesion acc)%nat
     then cohesion_rule p self acc = Some fc else fc = vzero) /\
    position s' = position self /\ velocity s' = velocity self /\
    neighbors s' = nbrs acc /\
    acceleration s' =
      vadd (vadd (vadd (acceleration self)
                       (vscale fs (separation_weight p)))
                 (vscale fa (alignment_weight p)))
           (vscale fc (cohesion_weight p)).
Proof.
  unfold flock_self.
  destruct (scan_total p i (set_neighbors self []) boids 0%nat scan_init)
    as (acc & Eacc).
  rewrite Eacc. simpl.
  set (s1 := set_neighbors (set_neighbors self []) (nbrs acc)).
  destruct (apply_rule_spec (total_separation acc) (separation_rule p s1 acc)
              (separation_weight p) s1 (separation_rule_bound p s1 acc))
    as (fs & s2 & E2 & Bs & Rs & P2 & V2 & N2 & A2).
  rewrite E2. simpl.
  destruct (apply_rule_spec (total_alignment acc) (alignment_rule p s2 acc)
              (alignment_weight p) s2 (alignment_rule_bound p s2 acc))
    as (fa & s3 & E3 & Ba & Ra & P3 & V3 & N3 & A3).
  rewrite E3. simpl.
  destruct (apply_rule_spec (total_cohesion acc) (cohesion_rule p s3 acc)
              (cohesion_weight p) s3 (cohesion_rule_bound p s3 acc))
    as (fc & s4 & E4 & Bc & Rc & P4 & V4 & N4 & A4).
  exists acc, fs, fa, fc, s4.
  split; [reflexivity |]. split; [exact E4 |]. split; [auto |].
  assert (V1 : velocity s1 = velocity self) by reflexivity.
  assert (P1 : position s1 = position self) by reflexivity.
  assert (N1 : neighbors s1 = nbrs acc) by reflexivity.
  split.
  { destruct (decide (0 < total_separation acc)%nat); [| exact Rs].
    rewrite <- Rs. apply separation_rule_ext. congruence. }
  split.
  { destruct (decide (0 < total_alignment acc)%nat); [| exact Ra].
    rewrite <- Ra. apply alignment_rule_ext. congruence. }
  split.
  { destruct (decide (0 < total_cohesion acc)%nat); [| exact Rc].
    rewrite <- Rc. apply cohesion_rule_ext; congruence. }
  split; [congruence |]. split; [congruence |]. split; [congruence |].
  rewrite A4, A3, A2. reflexivity.
Qed.


(** ** What the scan records *)

(** The loop body in closed form. *)
Lemma scan_body_Some (p : Params) (self : Boid) (j : nat) (other : Boid)
    (acc : Scan) :
  scan_body p self j other acc =
  Some (if Rlt_dec (distance_to self other) (perception_radius p)
        then
          mkScan (nbrs acc ++ [j])
            (if Rlt_dec (distance_to self other) (separation_radius p)
             then vadd (separation acc)
                    (vscale (vsub (position self) (position other))
                       (/ (distance_to self other * distance_to self other
                           + epsilon)))
             else separation acc)
            (vadd (alignment acc) (velocity other))
            (vadd (cohesion acc) (position other))
            (if Rlt_dec (distance_to self other) (separation_radius p)
             then S (total_separation acc) else total_separation acc)
            (S (total_alignment acc)) (S (total_cohesion acc))
        else acc).
Proof.
  unfold scan_body.
  destruct (Rlt_dec (distance_to self other) (perception_radius p));
    [| reflexivity].
  rewrite scan_separation_Some. simpl.
  destruct (Rlt_dec (distance_to self other) (separation_radius p));
    reflexivity.
Qed.

Lemma scan_body_nbrs (p : Params) (self : Boid) (j : nat) (other : Boid)
    (acc acc' : Scan) :
  scan_body p self j other acc = Some acc' ->
  nbrs acc' = nbrs acc \/ nbrs acc' = nbrs acc ++ [j].
Proof.
  rewrite scan_body_Some. intros [= <-].
  destruct (Rlt_dec _ _); simpl; auto.
Qed.

(** Every index the scan appends lies in the scanned range and differs from
    the index of the scanning agent. *)
Lemma scan_nbrs (p : Params) (i : nat) (self : Boid) (others : list Boid) :
  forall (j : nat) (acc acc' : Scan),
    scan p i self j others acc = Some acc' ->
    forall k : nat, k ∈ nbrs acc' ->
      k ∈ nbrs acc \/ (k <> i /\ (j <= k < j + length others)%nat).
Proof.
  induction others as [| other rest IH]; intros j acc acc' E k Hk.
  - simpl in E. injection E as <-. left. exact Hk.
  - simpl in E. destruct (decide (j = i)) as [-> | Hne]; simpl in E.
    + destruct (IH _ _ _ E k Hk) as [H | [H1 H2]]; [left; exact H |].
      right. split; [exact H1 | simpl; lia].
    + destruct (scan_body p self j other acc) as [acc1 |] eqn:E1;
        simpl in E; [| discriminate].
      destruct (IH _ _ _ E k Hk) as [H | [H1 H2]].
      * destruct (scan_body_nbrs _ _ _ _ _ _ E1) as [Eq | Eq];
          rewrite Eq in H; [left; exact H |].
        apply elem_of_app in H. destruct H as [H | H]; [left; exact H |].
        apply list_elem_of_singleton in H. subst k.
        right. split; [exact Hne | simpl; lia].
      * right. split; [exact H1 | simpl; lia].
Qed.

Lemma flock_self_neighbors (p : Params) (i : nat) (self s' : Boid)
    (boids : list Boid) :
  flock_self p i self boids = Some s' ->
  forall k : nat, k ∈ neighbors s' -> k <> i /\ (k < length boids)%nat.
Proof.
  intros E k Hk.
  destruct (flock_self_spec p i self boids)
    as (acc & fs & fa & fc & s & Ea & Es & _ & _ & _ & _ & _ & _ & N & _).
  rewrite Es in E. injection E as <-. rewrite N in Hk.
  destruct (scan_nbrs _ _ _ _ _ _ _ Ea k Hk) as [H | [H1 H2]].
  - simpl in H. apply elem_of_nil in H. contradiction.
  - split; [exact H1 | lia].
Qed.

(** ** [flock] on the store *)

Lemma flock_store (p : Params) (i : nat) (boids : list Boid) :
  exists boids',
    flock p i boids = Some boids' /\
    length boids' = length boids /\
    (forall k : nat, k <> i -> boids' !! k = boids !! k) /\
    (forall self : Boid, boids !! i = Some self ->
       exists self', flock_self p i self boids = Some self' /\
                     boids' !! i = Some self').
Proof.
  unfold flock. destruct (boids !! i) as [self |] eqn:E.
  - destruct (flock_self_spec p i self boids)
      as (acc & fs & fa & fc & s & _ & Es & _).
    rewrite Es. simpl. eexists. split; [reflexivity |].
    split; [apply length_insert |]. split.
    + intros k Hk. apply list_lookup_insert_ne. auto.
    + intros self0 [= <-]. exists s. split; [exact Es |].
      apply list_lookup_insert_eq. apply lookup_lt_Some in E. exact E.
  - exists boids. split; [reflexivity |]. split; [reflexivity |].
    split; [auto |]. intros self0 [=].
Qed.

(** ** Separation is coupled to perception *)

(** ** [flock] in closed form *)

Lemma within_true (r : R) (self other : Boid) :
  within r self other = true <-> distance_to self other < r.
Proof.
  unfold within. destruct (Rlt_dec (distance_to self other) r);
    split; auto; discriminate.
Qed.

Lemma others_from_cons (i j : nat) (o : Boid) (rest : list Boid) :
  others_from i j (o :: rest) =
  if decide (j = i) then others_from i (S j) rest
  else (j, o) :: others_from i (S j) rest.
Proof.
  unfold others_from. simpl. rewrite filter_cons. simpl.
  destruct (decide (j <> i)) as [N | E]; destruct (decide (j = i)) as [E' | N'];
    try reflexivity; tauto.
Qed.

Lemma perceived_from_cons (p : Params) (i : nat) (self : Boid) (j : nat)
    (o : Boid) (rest : list Boid) :
  perceived_from p i self j (o :: rest) =
  if decide (j = i) then perceived_from p i self (S j) rest
  else if Rlt_dec (distance_to self o) (perception_radius p)
       then (j, o) :: perceived_from p i self (S j) rest
       else perceived_from p i self (S j) rest.
Proof.
  unfold perceived_from. rewrite others_from_cons.
  destruct (decide (j = i)); [reflexivity |].
  rewrite filter_cons. simpl.
  destruct (decide (within (perception_radius p) self o = true)) as [W | W];
    destruct (Rlt_dec (distance_to self o) (perception_radius p)) as [L | G];
    try reflexivity; exfalso.
  - apply within_true in W. contradiction.
  - apply W, within_true, L.
Qed.

Lemma separating_from_cons (p : Params) (i : nat) (self : Boid) (j : nat)
    (o : Boid) (rest : list Boid) :
  separating_from p i self j (o :: rest) =
  if decide (j = i) then separating_from p i self (S j) rest
  else if Rlt_dec (distance_to self o) (perception_radius p)
       then if Rlt_dec (distance_to self o) (separation_radius p)
            then (j, o) :: separating_from p i self (S j) rest
            else separating_from p i self (S j) rest
       else separating_from p i self (S j) rest.
Proof.
  unfold separating_from. rewrite perceived_from_cons.
  destruct (decide (j = i)); [reflexivity |].
  destruct (Rlt_dec (distance_to self o) (perception_radius p));
    [| reflexivity].
  rewrite filter_cons. simpl.
  destruct (decide (within (separation_radius p) self o = true)) as [W | W];
    destruct (Rlt_dec (distance_to self o) (separation_radius p)) as [L | G];
    try reflexivity; exfalso.
  - apply within_true in W. contradiction.
  - apply W, within_true, L.
Qed.

(** What the loop of [flock] leaves in its variables. *)
Lemma scan_closed_form (p : Params) (i : nat) (self : Boid)
    (others : list Boid) :
  forall (j : nat) (acc : Scan),
    scan p i self j others acc =
    Some (mkScan
            (nbrs acc ++ map fst (perceived_from p i self j others))
            (foldl vadd (separation acc)
               (map (fun jo => separation_term self (snd jo))
                    (separating_from p i self j others)))
            (foldl vadd (alignment acc)
               (map (fun jo => velocity (snd jo))
                    (perceived_from p i self j others)))
            (foldl vadd (cohesion acc)
               (map (fun jo => position (snd jo))
                    (perceived_from p i self j others)))
            (total_separation acc
             + length (separating_from p i self j others))
            (total_alignment acc + length (perceived_from p i self j others))
            (total_cohesion acc
             + length (perceived_from p i self j others))).
Proof.
  induction others as [| o rest IH]; intros j acc.
  - simpl. rewrite app_nil_r, !Nat.add_0_r. destruct acc; reflexivity.
  - rewrite perceived_from_cons, separating_from_cons.
    cbn [scan]. destruct (decide (j = i)) as [E | N]; simpl.
    + apply IH.
    + rewrite scan_body_Some. simpl. rewrite IH.
      destruct (Rlt_dec (distance_to self o) (perception_radius p));
        [destruct (Rlt_dec (distance_to self o) (separation_radius p)) |];
        simpl; rewrite <- ?app_assoc; simpl;
        rewrite ?Nat.add_succ_r; reflexivity.
Qed.

Lemma others_from_elem (i : nat) (others : list Boid) :
  forall (j k : nat) (o : Boid),
    (k, o) ∈ others_from i j others <->
    k <> i /\ (j <= k)%nat /\ others !! (k - j)%nat = Some o.
Proof.
  induction others as [| b rest IH]; intros j k o.
  - unfold others_from. simpl. rewrite filter_nil. split.
    + intros H. apply elem_of_nil in H. contradiction.
    + intros (_ & _ & H). discriminate.
  - rewrite others_from_cons.
    assert (Hshift : (S j <= k)%nat ->
                     (b :: rest) !! (k - j)%nat = rest !! (k - S j)%nat).
    { intros Hk. replace (k - j)%nat with (S (k - S j)) by lia. reflexivity. }
    destruct (decide (j = i)) as [-> | N].
    + rewrite IH. split.
      * intros (H1 & H2 & H3). split; [exact H1 |]. split; [lia |].
        rewrite Hshift by lia. exact H3.
      * intros (H1 & H2 & H3). assert (S i <= k)%nat by lia.
        split; [exact H1 |]. split; [assumption |].
        rewrite <- Hshift by assumption. exact H3.
    + rewrite elem_of_cons, IH. split.
      * intros [[= -> ->] | (H1 & H2 & H3)].
        -- split; [exact N |]. split; [lia |].
           rewrite Nat.sub_diag. reflexivity.
        -- split; [exact H1 |]. split; [lia |].
           rewrite Hshift by lia. exact H3.
      * intros (H1 & H2 & H3).
        destruct (decide (k = j)) as [-> | Hkj].
        -- left. rewrite Nat.sub_diag in H3. simpl in H3. congruence.
        -- right. assert (S j <= k)%nat by lia.
           split; [exact H1 |]. split; [assumption |].
           rewrite <- Hshift by assumption. exact H3.
Qed.

Lemma perceived_others_elem (p : Params) (i : nat) (self : Boid)
    (boids : list Boid) (k : nat) (o : Boid) :
  (k, o) ∈ perceived_others p i self boids <->
  k <> i /\ boids !! k = Some o /\
  distance_to self o < perception_radius p.
Proof.
  unfold perceived_others, perceived_from.
  rewrite list_elem_of_filter, others_from_elem, Nat.sub_0_r. simpl.
  rewrite within_true. split.
  - intros (H1 & H2 & _ & H3). auto.
  - intros (H1 & H2 & H3). split; [exact H3 |]. split; [exact H1 |].
    split; [lia | exact H2].
Qed.

Lemma separating_others_elem (p : Params) (i : nat) (self : Boid)
    (boids : list Boid) (k : nat) (o : Boid) :
  (k, o) ∈ separating_others p i self boids <->
  k <> i /\ boids !! k = Some o /\
  distance_to self o < perception_radius p /\
  distance_to self o < separation_radius p.
Proof.
  unfold separating_others, separating_from.
  rewrite list_elem_of_filter. simpl. rewrite within_true.
  change (perceived_from p i self 0 boids)
    with (perceived_others p i self boids).
  rewrite perceived_others_elem. tauto.
Qed.

Lemma rule_force_intro (p : Params) (self : Boid) (count : nat)
    (sum : Vec) (shift : Vec -> Vec) (rule : option Vec) (f : Vec) :
  rule = (avg ← vdiv sum (INR count); steer p self (shift avg)) ->
  (if decide (0 < count)%nat then rule = Some f else f = vzero) ->
  is_rule_force p self count (shift (vscale sum (/ INR count))) f.
Proof.
  intros -> H. split.
  - intros ->. destruct (decide (0 < 0)%nat); [lia | exact H].
  - intros L. destruct (decide (0 < count)%nat); [| contradiction].
    rewrite vdiv_Some in H by (apply INR_pos_neq, L). simpl in H.
    unfold steer in H.
    destruct (normalize (shift (vscale sum (/ INR count)))) as [u |];
      simpl in H; [| discriminate].
    exists u. split; [reflexivity | exact H].
Qed.

(** [flock] for one agent, in closed form: position and velocity are kept,
    the neighbour list becomes the indices of the perceived agents, and the
    acceleration gains the three weighted sub-forces. *)
Lemma flock_self_closed_form (p : Params) (i : nat) (self : Boid)
    (boids : list Boid) :
  exists s' fs fa fc,
    flock_self p i self boids = Some s' /\
    position s' = position self /\ velocity s' = velocity self /\
    neighbors s' = map fst (perceived_others p i self boids) /\
    is_rule_force p self (length (separating_others p i self boids))
      (vscale (vsum (map (fun jo => separation_term self (snd jo))
                         (separating_others p i self boids)))
              (/ INR (length (separating_others p i self boids)))) fs /\
    is_rule_force p self (length (perceived_others p i self boids))
      (vscale (vsum (map (fun jo => velocity (snd jo))
                         (perceived_others p i self boids)))
              (/ INR (length (perceived_others p i self boids)))) fa /\
    is_rule_force p self (length (perceived_others p i self boids))
      (vsub (vscale (vsum (map (fun jo => position (snd jo))
                               (perceived_others p i self boids)))
                    (/ INR (length (perceived_others p i self boids))))
            (position self)) fc /\
    acceleration s' =
      vadd (vadd (vadd (acceleration self)
                       (vscale fs (separation_weight p)))
                 (vscale fa (alignment_weight p)))
           (vscale fc (cohesion_weight p)).
Proof.
  destruct (flock_self_spec p i self boids)
    as (acc & fs & fa & fc & s' & Ea & Es & _ & Rs & Ra & Rc & P & V & N & A).
  assert (Hc : scan p i (set_neighbors self []) 0 boids scan_init =
               Some (mkScan
                 (map fst (perceived_others p i self boids))
                 (vsum (map (fun jo => separation_term self (snd jo))
                            (separating_others p i self boids)))
                 (vsum (map (fun jo => velocity (snd jo))
                            (perceived_others p i self boids)))
                 (vsum (map (fun jo => position (snd jo))
                            (perceived_others p i self boids)))
                 (length (separating_others p i self boids))
                 (length (perceived_others p i self boids))
                 (length (perceived_others p i self boids))))
    by exact (scan_closed_form p i (set_neighbors self []) boids 0 scan_init).
  rewrite Hc in Ea. injection Ea as <-. simpl in Rs, Ra, Rc, N.
  exists s', fs, fa, fc. repeat (split; [assumption |]).
  split; [| split; [| split; [| exact A]]].
  - exact (rule_force_intro p self _ _ (fun a => a) _ fs eq_refl Rs).
  - exact (rule_force_intro p self _ _ (fun a => a) _ fa eq_refl Ra).
  - exact (rule_force_intro p self _ _
             (fun a => vsub a (position self)) _ fc eq_refl Rc).
Qed.

(** C3, as the code has it.  [flock] returns for every store and changes no
    agent other than the calling one.  Of the calling agent it keeps
    position and velocity; it replaces the neighbour list by the indices of
    the other agents closer than the perception radius, and it adds to the
    acceleration the three sub-forces, each multiplied by its weight. *)
Theorem flock_frame (p : Params) (i : nat) (boids : list Boid) :
  exists boids',
    flock p i boids = Some boids' /\
    length boids' = length boids /\
    (forall k : nat, k <> i -> boids' !! k = boids !! k) /\
    (forall self : Boid, boids !! i = Some self ->
       exists self' fs fa fc,
         boids' !! i = Some self' /\
         position self' = position self /\
         velocity self' = velocity self /\
         neighbors self' = map fst (perceived_others p i self boids) /\
         (forall k : nat,
            k ∈ neighbors self' <->
            k <> i /\
            exists o, boids !! k = Some o /\
                      distance_to self o < perception_radius p) /\
         is_rule_force p self (length (separating_others p i self boids))
           (vscale (vsum (map (fun jo => separation_term self (snd jo))
                              (separating_others p i self boids)))
                   (/ INR (length (separating_others p i self boids)))) fs /\
         is_rule_force p self (length (perceived_others p i self boids))
           (vscale (vsum (map (fun jo => velocity (snd jo))
                              (perceived_others p i self boids)))
                   (/ INR (length (perceived_others p i self boids)))) fa /\
         is_rule_force p self (length (perceived_others p i self boids))
           (vsub (vscale (vsum (map (fun jo => position (snd jo))
                                    (perceived_others p i self boids)))
                         (/ INR (length (perceived_others p i self boids))))
                 (position self)) fc /\
         acceleration self' =
           vadd (vadd (vadd (acceleration self)
                            (vscale fs (separation_weight p)))
                      (vscale fa (alignment_weight p)))
                (vscale fc (cohesion_weight p))).
Proof.
  destruct (flock_store p i boids) as (boids' & E & L & Ho & Hi).
  exists boids'. repeat (split; [assumption |]).
  intros self Hself. destruct (Hi self Hself) as (s & Es & Hs).
  destruct (flock_self_closed_form p i self boids)
    as (s0 & fs & fa & fc & Es0 & P & V & N & Fs & Fa & Fc & A).
  assert (s0 = s) as -> by congruence.
  exists s, fs, fa, fc. repeat (split; [assumption |]).
  split; [| auto].
  intros k. rewrite N, list_elem_of_fmap. split.
  - intros ([k' o] & -> & Hin). apply perceived_others_elem in Hin.
    simpl. destruct Hin as (H1 & H2 & H3). eauto.
  - intros (H1 & o & H2 & H3). exists (k, o). split; [reflexivity |].
    apply perceived_others_elem. auto.
Qed.

(** C7.  In [flock] the separation rule takes a contribution from another
    agent exactly when that agent's distance is below both the perception
    radius and the separation radius: the separation sub-force is computed
    from the sum and the count of those agents only, each of them is in the
    neighbour list, and an agent at or beyond the perception radius never
    contributes, whatever the separation radius is. *)
Theorem separation_within_perception (p : Params) (i : nat)
    (boids : list Boid) (self : Boid) :
  boids !! i = Some self ->
  exists boids' self' fs fa fc,
    flock p i boids = Some boids' /\ boids' !! i = Some self' /\
    (forall (k : nat) (o : Boid),
       (k, o) ∈ separating_others p i self boids <->
       k <> i /\ boids !! k = Some o /\
       distance_to self o < perception_radius p /\
       distance_to self o < separation_radius p) /\
    (forall (k : nat) (o : Boid),
       (k, o) ∈ separating_others p i self boids -> k ∈ neighbors self') /\
    (forall (k : nat) (o : Boid),
       perception_radius p <= distance_to self o ->
       (k, o) ∉ separating_others p i self boids) /\
    is_rule_force p self (length (separating_others p i self boids))
      (vscale (vsum (map (fun jo => separation_term self (snd jo))
                         (separating_others p i self boids)))
              (/ INR (length (separating_others p i self boids)))) fs /\
    is_rule_force p self (length (perceived_others p i self boids))
      (vscale (vsum (map (fun jo => velocity (snd jo))
                         (perceived_others p i self boids)))
              (/ INR (length (perceived_others p i self boids)))) fa /\
    is_rule_force p self (length (perceived_others p i self boids))
      (vsub (vscale (vsum (map (fun jo => position (snd jo))
                               (perceived_others p i self boids)))
                    (/ INR (length (perceived_others p i self boids))))
            (position self)) fc /\
    acceleration self' =
      vadd (vadd (vadd (acceleration self)
                       (vscale fs (separation_weight p)))
                 (vscale fa (alignment_weight p)))
           (vscale fc (cohesion_weight p)).
Proof.
  intros Hself.
  destruct (flock_store p i boids) as (boids' & E & _ & _ & Hi).
  destruct (Hi self Hself) as (s & Es & Hs).
  destruct (flock_self_closed_form p i self boids)
    as (s0 & fs & fa & fc & Es0 & _ & _ & N & Fs & Fa & Fc & A).
  assert (s0 = s) as -> by congruence.
  exists boids', s, fs, fa, fc.
  split; [exact E |]. split; [exact Hs |].
  split; [intros k o; apply separating_others_elem |].
  split.
  { intros k o Hin. apply separating_others_elem in Hin.
    destruct Hin as (H1 & H2 & H3 & _).
    rewrite N. apply list_elem_of_fmap. exists (k, o).
    split; [reflexivity |]. apply perceived_others_elem. auto. }
  split.
  { intros k o Hfar Hin. apply separating_others_elem in Hin.
    destruct Hin as (_ & _ & H3 & _). lra. }
  auto.
Qed.

(** ** Two agents at the same position *)

Lemma distance_same_position (self other : Boid) :
  position self = position other -> distance_to self other = 0.
Proof.
  intros E. unfold distance_to. rewrite E.
  apply norm_eq; simpl; [lra | ring].
Qed.

(** C8. When [self] and [other] are at the same position the distance is 0,
    the divisor [distance² + 1e-5] of the separation block is positive, and
    (with positive radii, so that the block runs) the scan of the two-agent
    flock returns with one separation contribution that is the zero vector;
    the separation rule then returns the clamped vector [-velocity], and
    [flock] returns. *)
Theorem separation_at_distance_zero (p : Params) (self other : Boid) :
  position self = position other ->
  0 < perception_radius p -> 0 < separation_radius p ->
  distance_to self other = 0 /\
  distance_to self other * distance_to self other + 1e-5 = 1e-5 /\
  vdiv (vsub (position self) (position other))
       (distance_to self other * distance_to self other + 1e-5)
  = Some vzero /\
  exists acc f boids',
    scan p 0 (set_neighbors self []) 0 [self; other] scan_init = Some acc /\
    total_separation acc = 1%nat /\ separation acc = vzero /\
    separation_rule p self acc = Some f /\
    limit (vsub vzero (velocity self)) 0.2 = Some f /\
    norm f <= 0.2 /\
    flock p 0 [self; other] = Some boids'.
Proof.
  intros E Hp Hs. pose proof (distance_same_position self other E) as D.
  split; [exact D |]. rewrite D.
  split; [lra |].
  split.
  { rewrite vdiv_Some by lra. f_equal. rewrite E.
    apply vec_eq; simpl; ring. }
  assert (D0 : distance_to (set_neighbors self []) other = 0)
    by (apply distance_same_position; exact E).
  destruct (limit_bound (vsub vzero (velocity self)) 0.2) as (f & Ef & Bf);
    [lra |].
  destruct (flock_store p 0 [self; other]) as (boids' & Eb & _).
  eexists. exists f, boids'. split.
  { simpl. rewrite scan_body_Some. rewrite D0. simpl.
    destruct (Rlt_dec 0 (perception_radius p)) as [_ | N];
      [| exfalso; lra].
    destruct (Rlt_dec 0 (separation_radius p)) as [_ | N];
      [| exfalso; lra].
    reflexivity. }
  split; [reflexivity |]. split.
  { simpl. rewrite E. apply vec_eq; simpl; ring. }
  split.
  { unfold separation_rule. simpl total_separation. simpl separation.
    rewrite vdiv_Some by (simpl; lra). simpl. rewrite E.
    unfold steer.
    match goal with
    | |- context [normalize ?v] =>
        replace v with vzero by (apply vec_eq; simpl; ring)
    end.
    rewrite normalize_vzero. simpl.
    rewrite <- Ef. f_equal. apply vec_eq; simpl; ring. }
  split; [exact Ef |]. split; [exact Bf | exact Eb].
Qed.

(** ** One frame: agents are steered and moved one after the other *)

Lemma update_total (p : Params) (b : Boid) :
  0 <= max_speed p -> exists b', update p b = Some b'.
Proof.
  intros Hm. destruct (clamp_velocity_bound p b Hm) as (v & Ev & _).
  rewrite (update_unfold _ _ _ Ev). eauto.
Qed.

Lemma update_neighbors (p : Params) (b b' : Boid) :
  update p b = Some b' -> neighbors b' = neighbors b.
Proof.
  unfold update. destruct (clamp_velocity p b) as [v |]; simpl; [| discriminate].
  intros [= <-].
  match goal with
  | |- neighbors (handle_boundaries _ ?s) = _ =>
      destruct (handle_boundaries_frame p s) as (_ & _ & ->)
  end.
  reflexivity.
Qed.

Lemma frame_one_store (p : Params) (i : nat) (boids : list Boid) :
  0 <= max_speed p ->
  exists boids',
    frame_one p i boids = Some boids' /\
    length boids' = length boids /\
    (forall k : nat, k <> i -> boids' !! k = boids !! k) /\
    (forall self : Boid, boids !! i = Some self ->
       exists s1 s2, flock_self p i self boids = Some s1 /\
                     update p s1 = Some s2 /\
                     boids' !! i = Some s2).
Proof.
  intros Hm. unfold frame_one.
  destruct (flock_store p i boids) as (b1 & E1 & L1 & O1 & S1).
  rewrite E1. simpl. unfold update_at.
  destruct (b1 !! i) as [s1 |] eqn:Ei.
  - destruct (update_total p s1 Hm) as (s2 & E2). rewrite E2. simpl.
    eexists. split; [reflexivity |].
    split; [rewrite length_insert; exact L1 |]. split.
    + intros k Hk. rewrite list_lookup_insert_ne by auto. apply O1, Hk.
    + intros self Hs. destruct (S1 self Hs) as (s & Es & Hs1).
      assert (s = s1) as -> by congruence.
      exists s1, s2. split; [exact Es |]. split; [exact E2 |].
      apply list_lookup_insert_eq. apply lookup_lt_Some in Ei. exact Ei.
  - exists b1. split; [reflexivity |]. split; [exact L1 |].
    split; [exact O1 |]. intros self Hs.
    destruct (S1 self Hs) as (s & _ & Hs1). congruence.
Qed.

Lemma take_ext (l1 l2 : list Boid) (n : nat) :
  (forall k : nat, (k < n)%nat -> l1 !! k = l2 !! k) -> take n l1 = take n l2.
Proof.
  intros H. apply list_eq. intros k.
  destruct (decide (k < n)%nat) as [L | G].
  - rewrite !lookup_take_lt by exact L. apply H, L.
  - rewrite !lookup_take_ge by lia. reflexivity.
Qed.

Lemma drop_ext (l1 l2 : list Boid) (n : nat) :
  (forall k : nat, (n <= k)%nat -> l1 !! k = l2 !! k) -> drop n l1 = drop n l2.
Proof.
  intros H. apply list_eq. intros k. rewrite !lookup_drop. apply H. lia.
Qed.

(** The loop over the indices [j, j+1, ..., j+n-1]: agent [k] in that range
    is steered on the store in which the agents before it already have
    their new state and the others still have the state they came with. *)
Lemma frame_loop_seq (p : Params) :
  0 <= max_speed p ->
  forall (n j : nat) (cur : list Boid),
  exists fin,
    frame_loop p (seq j n) cur = Some fin /\
    length fin = length cur /\
    (forall k : nat, (k < j)%nat -> fin !! k = cur !! k) /\
    (forall k : nat, (j + n <= k)%nat -> fin !! k = cur !! k) /\
    (forall (k : nat) (self : Boid),
       (j <= k < j + n)%nat -> cur !! k = Some self ->
       exists s1 s2,
         flock_self p k self (take k fin ++ drop k cur) = Some s1 /\
         update p s1 = Some s2 /\
         fin !! k = Some s2).
Proof.
  intros Hm. induction n as [| n IH]; intros j cur.
  - exists cur. simpl. repeat (split; [reflexivity || auto |]).
    intros k self Hk. lia.
  - simpl. destruct (frame_one_store p j cur Hm) as (cur1 & E1 & L1 & O1 & S1).
    rewrite E1. simpl.
    destruct (IH (S j) cur1) as (fin & Ef & Lf & Bf & Af & Mf).
    exists fin. split; [exact Ef |]. split; [congruence |].
    split; [intros k Hk; rewrite Bf by lia; apply O1; lia |].
    split; [intros k Hk; rewrite Af by lia; apply O1; lia |].
    intros k self Hk Hs.
    destruct (decide (k = j)) as [-> | Hne].
    + destruct (S1 self Hs) as (s1 & s2 & Es1 & Es2 & Hj).
      exists s1, s2.
      assert (T : take j fin = take j cur).
      { apply take_ext. intros m Hm'. rewrite Bf by lia. apply O1. lia. }
      rewrite T, take_drop. split; [exact Es1 |]. split; [exact Es2 |].
      rewrite Bf by lia. exact Hj.
    + assert (Hs1 : cur1 !! k = Some self) by (rewrite O1 by exact Hne; exact Hs).
      destruct (Mf k self ltac:(lia) Hs1) as (s1 & s2 & Es1 & Es2 & Hk').
      exists s1, s2.
      assert (D : drop k cur1 = drop k cur).
      { apply drop_ext. intros m Hm'. apply O1. lia. }
      rewrite <- D. auto.
Qed.

(** C2, as the code has it.  A frame handles the agents one at a time in
    list order: agent [i] is steered (and then moved) on the store in which
    the agents before [i] already have their post-step state and the agents
    from [i] on still have their pre-step state.  Only the first agent is
    steered on the pre-step snapshot. *)
Theorem frame_sequential (p : Params) (boids : list Boid) :
  0 <= max_speed p ->
  exists boids',
    frame p boids = Some boids' /\
    length boids' = length boids /\
    (forall (i : nat) (self : Boid),
       boids !! i = Some self ->
       exists s1 s2,
         flock_self p i self (take i boids' ++ drop i boids) = Some s1 /\
         update p s1 = Some s2 /\
         boids' !! i = Some s2) /\
    (forall self : Boid,
       boids !! 0%nat = Some self ->
       exists s1 s2,
         flock_self p 0 self boids = Some s1 /\
         update p s1 = Some s2 /\
         boids' !! 0%nat = Some s2).
Proof.
  intros Hm. unfold frame.
  destruct (frame_loop_seq p Hm (length boids) 0 boids)
    as (fin & Ef & Lf & _ & _ & Mf).
  assert (Hall : forall (i : nat) (self : Boid),
             boids !! i = Some self ->
             exists s1 s2,
               flock_self p i self (take i fin ++ drop i boids) = Some s1 /\
               update p s1 = Some s2 /\
               fin !! i = Some s2).
  { intros i self Hs. apply Mf; [| exact Hs].
    apply lookup_lt_Some in Hs. lia. }
  exists fin. split; [exact Ef |]. split; [exact Lf |].
  split; [exact Hall |].
  intros self Hs. exact (Hall 0%nat self Hs).
Qed.

(** C6. After [flock], the agent's own index is not in its neighbour list
    (and every recorded neighbour is an agent of the flock); after a whole
    frame this holds for every agent of the flock. *)
Theorem no_self_neighbor (p : Params) (boids : list Boid) :
  (forall i : nat,
     exists boids',
       flock p i boids = Some boids' /\
       forall self' : Boid, boids' !! i = Some self' ->
         (i ∉ neighbors self') /\
         (forall k : nat, k ∈ neighbors self' -> (k < length boids)%nat)) /\
  (0 <= max_speed p ->
   exists boids',
     frame p boids = Some boids' /\
     forall (i : nat) (self' : Boid), boids' !! i = Some self' ->
       i ∉ neighbors self').
Proof.
  split.
  - intros i.
    destruct (flock_store p i boids) as (boids' & E & L & _ & Hi).
    exists boids'. split; [exact E |]. intros self' Hs.
    assert (Hlt : is_Some (boids !! i)).
    { apply lookup_lt_is_Some. apply lookup_lt_Some in Hs. lia. }
    destruct Hlt as [self Hself].
    destruct (Hi self Hself) as (s & Es & Hs').
    assert (s = self') as -> by congruence.
    split.
    + intros Hin.
      destruct (flock_self_neighbors _ _ _ _ _ Es i Hin) as [H _].
      apply H. reflexivity.
    + intros k Hk. apply (flock_self_neighbors _ _ _ _ _ Es k Hk).
  - intros Hm. unfold frame.
    destruct (frame_loop_seq p Hm (length boids) 0 boids)
      as (fin & Ef & Lf & _ & _ & Mf).
    exists fin. split; [exact Ef |]. intros i self' Hs Hin.
    assert (Hlt : is_Some (boids !! i)).
    { apply lookup_lt_is_Some. apply lookup_lt_Some in Hs. lia. }
    destruct Hlt as [self Hself].
    destruct (Mf i self) as (s1 & s2 & E1 & E2 & E3);
      [apply lookup_lt_Some in Hself; lia | exact Hself |].
    assert (s2 = self') as -> by congruence.
    rewrite (update_neighbors _ _ _ E2) in Hin.
    destruct (flock_self_neighbors _ _ _ _ _ E1 i Hin) as [H _].
    apply H. reflexivity.
Qed.

(** ** Evaluating the functions on concrete agents *)

Lemma scan_cons_self (p : Params) (i : nat) (self other : Boid)
    (rest : list Boid) (acc : Scan) :
  scan p i self i (other :: rest) acc = scan p i self (S i) rest acc.
Proof. simpl. destruct (decide (i = i)); [reflexivity | contradiction]. Qed.

Lemma scan_cons_other (p : Params) (i : nat) (self : Boid) (j : nat)
    (other : Boid) (rest : list Boid) (acc acc1 : Scan) :
  j <> i ->
  scan_body p self j other acc = Some acc1 ->
  scan p i self j (other :: rest) acc = scan p i self (S j) rest acc1.
Proof.
  intros N E. simpl. destruct (decide (j = i)); [contradiction |].
  rewrite E. reflexivity.
Qed.

Lemma scan_body_far (p : Params) (self : Boid) (j : nat) (other : Boid)
    (acc : Scan) :
  perception_radius p <= distance_to self other ->
  scan_body p self j other acc = Some acc.
Proof.
  intros H. rewrite scan_body_Some.
  destruct (Rlt_dec (distance_to self other) (perception_radius p));
    [exfalso; lra | reflexivity].
Qed.

(** An agent that perceives nobody only has its neighbour list emptied. *)
Lemma flock_self_nobody (p : Params) (i : nat) (self : Boid)
    (boids : list Boid) :
  scan p i (set_neighbors self []) 0 boids scan_init = Some scan_init ->
  flock_self p i self boids = Some (set_neighbors self []).
Proof. intros E. unfold flock_self. rewrite E. reflexivity. Qed.

Lemma update_free (p : Params) (b : Boid) :
  let v := vadd (velocity b) (acceleration b) in
  let pos := vadd (position b) v in
  norm v <= max_speed p ->
  50 <= vx pos <= WIDTH - 50 -> 50 <= vy pos <= HEIGHT - 50 ->
  update p b = Some (mkBoid pos v (mkVec 0 0) (neighbors b)).
Proof.
  intros v pos Hn Hx Hy.
  assert (Ev : clamp_velocity p b = Some v).
  { unfold clamp_velocity. fold v.
    destruct (Rgt_dec (norm v) (max_speed p)); [exfalso; lra | reflexivity]. }
  rewrite (update_unfold _ _ _ Ev). f_equal. fold pos.
  pose proof (handle_boundaries_frame p
                (mkBoid pos v (mkVec 0 0) (neighbors b))) as (Hp & Ha & Hn').
  pose proof (handle_boundaries_velocity p
                (mkBoid pos v (mkVec 0 0) (neighbors b))) as Hv.
  destruct (handle_boundaries p (mkBoid pos v (mkVec 0 0) (neighbors b)))
    as [ps vs acs ns].
  simpl in Hp, Ha, Hn', Hv. subst ps acs ns. f_equal.
  rewrite Hv. unfold margin, WIDTH, HEIGHT in *.
  subst pos v. simpl in *.
  decide_reals. apply vec_eq; simpl; lra.
Qed.

Lemma normalize_x_neg (v : Vec) :
  vy v = 0 -> vx v < 0 -> normalize v = Some (mkVec (-1) 0).
Proof.
  intros Hy Hx.
  assert (N : norm v = - vx v) by (apply norm_eq; [lra | rewrite Hy; ring]).
  unfold normalize. rewrite N.
  destruct (Rgt_dec (- vx v) 0); [| exfalso; lra].
  rewrite vdiv_Some by lra. f_equal. apply vec_eq; simpl.
  - field. lra.
  - rewrite Hy. ring.
Qed.

Lemma normalize_x_pos (v : Vec) :
  vy v = 0 -> 0 < vx v -> normalize v = Some (mkVec 1 0).
Proof.
  intros Hy Hx.
  assert (N : norm v = vx v) by (apply norm_eq; [lra | rewrite Hy; ring]).
  unfold normalize. rewrite N.
  destruct (Rgt_dec (vx v) 0); [| exfalso; lra].
  rewrite vdiv_Some by lra. f_equal. apply vec_eq; simpl.
  - field. lra.
  - rewrite Hy. ring.
Qed.

Lemma limit_x_pos (v : Vec) (m : R) :
  vy v = 0 -> 0 <= m < vx v -> limit v m = Some (mkVec m 0).
Proof.
  intros Hy Hx.
  assert (N : norm v = vx v) by (apply norm_eq; [lra | rewrite Hy; ring]).
  rewrite limit_gt by lra. f_equal. rewrite N. apply vec_eq; simpl.
  - field. lra.
  - rewrite Hy. ring.
Qed.

Lemma limit_x_null (v : Vec) (m : R) :
  vy v = 0 -> vx v = 0 -> 0 <= m -> limit v m = Some v.
Proof.
  intros Hy Hx Hm. apply limit_le.
  rewrite (norm_eq v 0); [exact Hm | lra | rewrite Hx, Hy; ring].
Qed.

Lemma frame_one_eq (p : Params) (i : nat) (boids : list Boid)
    (self s1 s2 : Boid) :
  boids !! i = Some self ->
  flock_self p i self boids = Some s1 ->
  update p s1 = Some s2 ->
  frame_one p i boids = Some (<[i := s2]> boids).
Proof.
  intros Hs E1 E2. unfold frame_one, flock. rewrite Hs, E1. simpl.
  unfold update_at.
  rewrite list_lookup_insert_eq by (apply lookup_lt_Some in Hs; exact Hs).
  rewrite E2. simpl. rewrite list_insert_insert_eq. reflexivity.
Qed.

Lemma flock_eq (p : Params) (i : nat) (boids : list Boid) (self s1 : Boid) :
  boids !! i = Some self ->
  flock_self p i self boids = Some s1 ->
  flock p i boids = Some (<[i := s1]> boids).
Proof. intros Hs E1. unfold flock. rewrite Hs, E1. reflexivity. Qed.

Lemma distance_along_x (a b : Boid) (r : R) :
  vy (position a) = vy (position b) ->
  0 <= r ->
  (vx (position a) - vx (position b) = r \/
   vx (position b) - vx (position a) = r) ->
  distance_to a b = r.
Proof.
  intros Hy Hr H. unfold distance_to. apply norm_eq; [exact Hr |].
  simpl. rewrite Hy. destruct H as [<- | <-]; ring.
Qed.

Lemma flock_a_first :
  flock_self default_params 0 boid_a [boid_a; boid_b] = Some boid_a.
Proof.
  apply (flock_self_nobody default_params 0 boid_a).
  rewrite scan_cons_self.
  rewrite (scan_cons_other _ _ _ _ _ _ _ scan_init); [reflexivity | lia |].
  apply scan_body_far.
  rewrite (distance_along_x _ _ 33); simpl; real_side.
Qed.

Lemma flock_b_first :
  flock_self default_params 0 boid_b [boid_b; boid_a] = Some boid_b.
Proof.
  apply (flock_self_nobody default_params 0 boid_b).
  rewrite scan_cons_self.
  rewrite (scan_cons_other _ _ _ _ _ _ _ scan_init); [reflexivity | lia |].
  apply scan_body_far.
  rewrite (distance_along_x _ _ 33); simpl; real_side.
Qed.

Lemma flock_b_second :
  flock_self default_params 1 boid_b [boid_a_moved; boid_b] = Some boid_b.
Proof.
  apply (flock_self_nobody default_params 1 boid_b).
  rewrite (scan_cons_other _ _ _ _ _ _ _ scan_init);
    [rewrite scan_cons_self; reflexivity | lia |].
  apply scan_body_far.
  rewrite (distance_along_x _ _ 37); simpl; real_side.
Qed.

Lemma update_a : update default_params boid_a = Some boid_a_moved.
Proof.
  rewrite update_free.
  - unfold boid_a_moved. f_equal. f_equal; apply vec_eq; simpl; lra.
  - rewrite (norm_eq _ 4); simpl; lra.
  - unfold WIDTH. simpl. lra.
  - unfold HEIGHT. simpl. lra.
Qed.

Lemma update_b : update default_params boid_b = Some boid_b_moved.
Proof.
  rewrite update_free.
  - unfold boid_b_moved. f_equal. f_equal; apply vec_eq; simpl; lra.
  - rewrite (norm_eq _ 4); simpl; lra.
  - unfold WIDTH. simpl. lra.
  - unfold HEIGHT. simpl. lra.
Qed.

Lemma update_a_steered :
  update default_params boid_a_steered = Some boid_a_late.
Proof.
  rewrite update_free.
  - unfold boid_a_late. f_equal. f_equal; apply vec_eq; simpl; lra.
  - rewrite (norm_eq _ 3.654); simpl; lra.
  - unfold WIDTH. simpl. lra.
  - unfold HEIGHT. simpl. lra.
Qed.

Lemma steer_x_neg_null (p : Params) (self : Boid) (d : Vec) :
  vy d = 0 -> vx d < 0 ->
  vy (velocity self) = 0 -> vx (velocity self) = - max_speed p ->
  steer p self d =
  Some (vsub (vscale (mkVec (-1) 0) (max_speed p)) (velocity self)).
Proof.
  intros Hy Hx Vy Vx. unfold steer. rewrite (normalize_x_neg d Hy Hx). simpl.
  apply limit_x_null; simpl; try lra. pose proof max_force_pos. lra.
Qed.

Lemma steer_x_pos (p : Params) (self : Boid) (d : Vec) :
  vy d = 0 -> 0 < vx d ->
  vy (velocity self) = 0 -> max_force < max_speed p - vx (velocity self) ->
  steer p self d = Some (mkVec max_force 0).
Proof.
  intros Hy Hx Vy Vx. unfold steer. rewrite (normalize_x_pos d Hy Hx). simpl.
  apply limit_x_pos; simpl; [lra |]. pose proof max_force_pos. lra.
Qed.

Lemma scan_a_second :
  scan default_params 1 (set_neighbors boid_a []) 0 [boid_b_moved; boid_a]
       scan_init
  = Some (mkScan [0%nat]
            (vadd vzero (vscale (mkVec (600 - 629) (400 - 400))
                                (/ (29 * 29 + epsilon))))
            (vadd vzero (mkVec (-4) 0))
            (vadd vzero (mkVec 629 400))
            1 1 1).
Proof.
  assert (D : distance_to (set_neighbors boid_a []) boid_b_moved = 29).
  { rewrite (distance_along_x _ _ 29); simpl; real_side. }
  erewrite scan_cons_other; [rewrite scan_cons_self; reflexivity | lia |].
  rewrite scan_body_Some, D. simpl.
  decide_reals. reflexivity.
Qed.

Lemma flock_a_second :
  flock_self default_params 1 boid_a [boid_b_moved; boid_a]
  = Some boid_a_steered.
Proof.
  destruct (flock_self_spec default_params 1 boid_a [boid_b_moved; boid_a])
    as (acc & fs & fa & fc & s' & Ea & Es & _ & Rs & Ra & Rc & P & V & N & A).
  rewrite scan_a_second in Ea. injection Ea as <-.
  assert (K : 0 < / (29 * 29 + epsilon)).
  { apply Rinv_0_lt_compat. pose proof epsilon_pos. lra. }
  set (k := / (29 * 29 + epsilon)) in *.
  simpl in Rs, Ra, Rc.
  assert (Fs : fs = vsub (vscale (mkVec (-1) 0) 4) (mkVec (-4) 0)).
  { unfold separation_rule in Rs. simpl in Rs.
    rewrite vdiv_Some in Rs by lra. simpl in Rs.
    rewrite steer_x_neg_null in Rs; simpl; try lra.
    injection Rs as <-. reflexivity. }
  assert (Fa : fa = vsub (vscale (mkVec (-1) 0) 4) (mkVec (-4) 0)).
  { unfold alignment_rule in Ra. simpl in Ra.
    rewrite vdiv_Some in Ra by lra. simpl in Ra.
    rewrite steer_x_neg_null in Ra; simpl; try lra.
    injection Ra as <-. reflexivity. }
  assert (Fc : fc = mkVec max_force 0).
  { unfold cohesion_rule in Rc. simpl in Rc.
    rewrite vdiv_Some in Rc by lra. simpl in Rc.
    rewrite steer_x_pos in Rc; simpl; try (unfold max_force; lra).
    injection Rc as <-. reflexivity. }
  rewrite Es. f_equal. destruct s' as [ps vs acs ns].
  simpl in P, V, N, A. subst ps vs ns acs fs fa fc.
  unfold boid_a_steered. f_equal.
  apply vec_eq; simpl; unfold max_force; lra.
Qed.

Lemma frame_a_b :
  frame default_params [boid_a; boid_b] = Some [boid_a_moved; boid_b_moved].
Proof.
  unfold frame. simpl seq. cbn [frame_loop].
  rewrite (frame_one_eq _ 0 [boid_a; boid_b] boid_a boid_a boid_a_moved
             eq_refl flock_a_first update_a).
  simpl.
  rewrite (frame_one_eq _ 1 [boid_a_moved; boid_b] boid_b boid_b boid_b_moved
             eq_refl flock_b_second update_b).
  reflexivity.
Qed.

Lemma frame_b_a :
  frame default_params [boid_b; boid_a] = Some [boid_b_moved; boid_a_late].
Proof.
  unfold frame. simpl seq. cbn [frame_loop].
  rewrite (frame_one_eq _ 0 [boid_b; boid_a] boid_b boid_b boid_b_moved
             eq_refl flock_b_first update_b).
  simpl.
  rewrite (frame_one_eq _ 1 [boid_b_moved; boid_a] boid_a boid_a_steered
             boid_a_late eq_refl flock_a_second update_a_steered).
  reflexivity.
Qed.

(** ** The claims the code does not meet, at concrete inputs *)

(** C2, as the claim states it, fails: with the default parameters the two
    orderings of [boid_a] and [boid_b] give different results for [boid_a].
    Processed first it sees nobody; processed second it sees [boid_b] at
    its new position, 29 units away, and is steered by it. *)
Lemma frame_order_counterexample :
  params_in_range default_params /\
  [boid_a; boid_b] ≡ₚ [boid_b; boid_a] /\
  frame default_params [boid_a; boid_b] = Some [boid_a_moved; boid_b_moved] /\
  frame default_params [boid_b; boid_a] = Some [boid_b_moved; boid_a_late] /\
  kinematics boid_a_moved <> kinematics boid_a_late /\
  ~ order_independent default_params.
Proof.
  assert (Hne : kinematics boid_a_moved <> kinematics boid_a_late).
  { intros E. apply (f_equal (fun k => vx (fst k))) in E. simpl in E. lra. }
  split; [unfold params_in_range; simpl; lra |].
  split; [apply Permutation_swap |].
  split; [exact frame_a_b |]. split; [exact frame_b_a |].
  split; [exact Hne |].
  intros H.
  specialize (H [boid_a; boid_b] [boid_b; boid_a] _ _
                (Permutation_swap _ _ _) frame_a_b frame_b_a).
  cbn [map] in H. apply Permutation_length_2_inv in H.
  destruct H as [H | H]; injection H; intros; lra.
Qed.

(** C3, as the claim states it, fails: [flock] replaces the neighbour list
    of the calling agent and adds the weighted sub-forces to its
    acceleration. *)
Lemma flock_mutates_self_counterexample :
  flock default_params 1 [boid_b_moved; boid_a]
  = Some [boid_b_moved; boid_a_steered] /\
  acceleration boid_a = mkVec 0 0 /\
  acceleration boid_a_steered = mkVec 0.346 0 /\
  acceleration boid_a_steered <> acceleration boid_a /\
  neighbors boid_a = [] /\
  neighbors boid_a_steered = [0%nat].
Proof.
  split.
  { rewrite (flock_eq _ 1 [boid_b_moved; boid_a] boid_a boid_a_steered
               eq_refl flock_a_second). reflexivity. }
  repeat (split; [reflexivity |]). split; [| split; reflexivity].
  intros E. apply (f_equal vx) in E. simpl in E. lra.
Qed.

(** ** The theorems at concrete inputs *)

Lemma no_self_neighbor_witness :
  0 <= max_speed default_params /\
  (exists boids' self',
     flock default_params 1 [boid_b_moved; boid_a] = Some boids' /\
     boids' !! 1%nat = Some self' /\
     (1%nat ∉ neighbors self') /\
     (forall k : nat, k ∈ neighbors self' -> (k < 2)%nat)) /\
  (exists boids' self',
     frame default_params [boid_b; boid_a] = Some boids' /\
     boids' !! 1%nat = Some self' /\
     (1%nat ∉ neighbors self')).
Proof.
  assert (Hm : 0 <= max_speed default_params) by (simpl; lra).
  split; [exact Hm |]. split.
  - destruct (proj1 (no_self_neighbor default_params [boid_b_moved; boid_a])
                1%nat) as (boids' & E & H).
    assert (E' : flock default_params 1 [boid_b_moved; boid_a]
                 = Some [boid_b_moved; boid_a_steered]).
    { rewrite (flock_eq _ 1 [boid_b_moved; boid_a] boid_a boid_a_steered
                 eq_refl flock_a_second). reflexivity. }
    assert (boids' = [boid_b_moved; boid_a_steered]) as -> by congruence.
    exists [boid_b_moved; boid_a_steered], boid_a_steered.
    split; [exact E |]. split; [reflexivity |].
    exact (H boid_a_steered eq_refl).
  - destruct (proj2 (no_self_neighbor default_params [boid_b; boid_a]) Hm)
      as (boids' & E & H).
    assert (boids' = [boid_b_moved; boid_a_late]) as ->
      by (pose proof frame_b_a; congruence).
    exists [boid_b_moved; boid_a_late], boid_a_late.
    split; [exact E |]. split; [reflexivity |].
    exact (H 1%nat boid_a_late eq_refl).
Defined.

Lemma flock_frame_witness :
  exists boids' self',
    flock default_params 1 [boid_b_moved; boid_a] = Some boids' /\
    boids' !! 0%nat = Some boid_b_moved /\
    boids' !! 1%nat = Some self' /\
    position self' = position boid_a /\ velocity self' = velocity boid_a /\
    0%nat ∈ neighbors self'.
Proof.
  assert (D : distance_to boid_a boid_b_moved = 29).
  { rewrite (distance_along_x _ _ 29); simpl; real_side. }
  destruct (flock_frame default_params 1 [boid_b_moved; boid_a])
    as (boids' & E & _ & Ho & Hs).
  destruct (Hs boid_a eq_refl)
    as (self' & fs & fa & fc & E1 & P & V & _ & Hk & _).
  exists boids', self'. split; [exact E |].
  split; [rewrite (Ho 0%nat) by lia; reflexivity |].
  split; [exact E1 |]. split; [exact P |]. split; [exact V |].
  apply Hk. split; [lia |]. exists boid_b_moved.
  split; [reflexivity |]. rewrite D. simpl. lra.
Defined.

Lemma separation_within_perception_witness :
  [boid_b_moved; boid_a] !! 1%nat = Some boid_a /\
  exists boids' self',
    flock default_params 1 [boid_b_moved; boid_a] = Some boids' /\
    boids' !! 1%nat = Some self' /\
    (0%nat, boid_b_moved)
    ∈ separating_others default_params 1 boid_a [boid_b_moved; boid_a] /\
    0%nat ∈ neighbors self'.
Proof.
  assert (D : distance_to boid_a boid_b_moved = 29).
  { rewrite (distance_along_x _ _ 29); simpl; real_side. }
  split; [reflexivity |].
  destruct (separation_within_perception default_params 1
              [boid_b_moved; boid_a] boid_a eq_refl)
    as (boids' & self' & fs & fa & fc & E & Es & Hiff & Hn & _).
  assert (Hin : (0%nat, boid_b_moved)
                ∈ separating_others default_params 1 boid_a
                    [boid_b_moved; boid_a]).
  { apply Hiff. split; [lia |]. split; [reflexivity |].
    rewrite D. simpl. lra. }
  exists boids', self'. split; [exact E |]. split; [exact Es |].
  split; [exact Hin | exact (Hn _ _ Hin)].
Defined.

Lemma separation_at_distance_zero_witness :
  position boid_a = position boid_a /\
  0 < perception_radius default_params /\
  0 < separation_radius default_params /\
  distance_to boid_a boid_a = 0 /\
  exists acc f boids',
    scan default_params 0 (set_neighbors boid_a []) 0 [boid_a; boid_a]
         scan_init = Some acc /\
    total_separation acc = 1%nat /\
    separation_rule default_params boid_a acc = Some f /\
    norm f <= 0.2 /\
    flock default_params 0 [boid_a; boid_a] = Some boids'.
Proof.
  assert (Hp : 0 < perception_radius default_params) by (simpl; lra).
  assert (Hs : 0 < separation_radius default_params) by (simpl; lra).
  destruct (separation_at_distance_zero default_params boid_a boid_a
              eq_refl Hp Hs)
    as (D & _ & _ & acc & f & boids' & Ea & T & _ & Ef & _ & B & Eb).
  split; [reflexivity |]. split; [exact Hp |]. split; [exact Hs |].
  split; [exact D |]. exists acc, f, boids'. auto.
Defined.

Lemma frame_sequential_witness :
  0 <= max_speed default_params /\
  exists boids' s1 s2,
    frame default_params [boid_b; boid_a] = Some boids' /\
    flock_self default_params 1 boid_a (take 1 boids' ++ drop 1 [boid_b; boid_a])
    = Some s1 /\
    update default_params s1 = Some s2 /\
    boids' !! 1%nat = Some s2.
Proof.
  assert (Hm : 0 <= max_speed default_params) by (simpl; lra).
  split; [exact Hm |].
  destruct (frame_sequential default_params [boid_b; boid_a] Hm)
    as (boids' & E & _ & H & _).
  destruct (H 1%nat boid_a eq_refl) as (s1 & s2 & E1 & E2 & E3).
  exists boids', s1, s2. auto.
Defined.

(** * Further properties of the simulation core *)

(** ** The triangle inequality for [norm] *)

Lemma dot_le_norms (a b : Vec) :
  vx a * vx b + vy a * vy b <= norm a * norm b.
Proof.
  apply Rsqr_incr_0_var.
  - unfold Rsqr.
    replace (norm a * norm b * (norm a * norm b))
      with ((norm a * norm a) * (norm b * norm b)) by ring.
    rewrite !norm_sqr.
    pose proof (Rle_0_sqr (vx a * vy b - vy a * vx b)) as H.
    unfold Rsqr in H. nra.
  - apply Rmult_le_pos; apply norm_nonneg.
Qed.

Lemma norm_triangle (a b : Vec) : norm (vadd a b) <= norm a + norm b.
Proof.
  apply Rsqr_incr_0_var.
  - unfold Rsqr. rewrite norm_sqr. simpl.
    pose proof (dot_le_norms a b). pose proof (norm_sqr a).
    pose proof (norm_sqr b). nra.
  - pose proof (norm_nonneg a). pose proof (norm_nonneg b). lra.
Qed.

Lemma distance_sym (a b : Boid) : distance_to a b = distance_to b a.
Proof.
  unfold distance_to. apply norm_eq; [apply norm_nonneg |].
  rewrite norm_sqr. simpl. ring.
Qed.

(** ** How much one call of [flock] can steer *)



(** ** The neighbour list is exactly the perceived agents *)

Lemma scan_nbrs_iff (p : Params) (i : nat) (self : Boid)
    (others : list Boid) :
  forall (j : nat) (acc acc' : Scan),
    scan p i self j others acc = Some acc' ->
    forall k : nat,
      k ∈ nbrs acc' <->
      k ∈ nbrs acc \/
      (k <> i /\ (j <= k)%nat /\
       exists other, others !! (k - j)%nat = Some other /\
                     distance_to self other < perception_radius p).
Proof.
  induction others as [| o rest IH]; intros j acc acc' E k.
  - simpl in E. injection E as <-. split; [auto |].
    intros [H | (_ & _ & other & H & _)]; [exact H | discriminate].
  - simpl in E.
    assert (Hshift : forall other : Boid,
               (S j <= k)%nat ->
               (o :: rest) !! (k - j)%nat = Some other <->
               rest !! (k - S j)%nat = Some other).
    { intros other Hk. replace (k - j)%nat with (S (k - S j)) by lia.
      reflexivity. }
    destruct (decide (j = i)) as [-> | Hne]; simpl in E.
    + rewrite (IH _ _ _ E k). split.
      * intros [H | (H1 & H2 & other & H3 & H4)]; [left; exact H |].
        right. split; [exact H1 |]. split; [lia |].
        exists other. split; [apply Hshift; assumption | exact H4].
      * intros [H | (H1 & H2 & other & H3 & H4)]; [left; exact H |].
        right. split; [exact H1 |].
        assert (S i <= k)%nat by lia. split; [assumption |].
        exists other. split; [apply Hshift; assumption | exact H4].
    + rewrite scan_body_Some in E. simpl in E.
      rewrite (IH _ _ _ E k). clear IH E.
      destruct (Rlt_dec (distance_to self o) (perception_radius p))
        as [L | G]; simpl.
      * rewrite elem_of_app, list_elem_of_singleton. split.
        -- intros [[H | ->] | (H1 & H2 & other & H3 & H4)].
           ++ left; exact H.
           ++ right. split; [exact Hne |]. split; [lia |].
              exists o. rewrite Nat.sub_diag. split; [reflexivity | exact L].
           ++ right. split; [exact H1 |]. split; [lia |].
              exists other. split; [apply Hshift; assumption | exact H4].
        -- intros [H | (H1 & H2 & other & H3 & H4)]; [left; left; exact H |].
           destruct (decide (k = j)) as [-> | Hkj]; [left; right; reflexivity |].
           right. assert (S j <= k)%nat by lia.
           split; [exact H1 |]. split; [assumption |].
           exists other. split; [apply Hshift; assumption | exact H4].
      * split.
        -- intros [H | (H1 & H2 & other & H3 & H4)]; [left; exact H |].
           right. split; [exact H1 |]. split; [lia |].
           exists other. split; [apply Hshift; assumption | exact H4].
        -- intros [H | (H1 & H2 & other & H3 & H4)]; [left; exact H |].
           destruct (decide (k = j)) as [-> | Hkj].
           { rewrite Nat.sub_diag in H3. injection H3 as <-. contradiction. }
           right. assert (S j <= k)%nat by lia.
           split; [exact H1 |]. split; [assumption |].
           exists other. split; [apply Hshift; assumption | exact H4].
Qed.

Lemma scan_nbrs_sorted (p : Params) (i : nat) (self : Boid)
    (others : list Boid) :
  forall (j : nat) (acc acc' : Scan),
    scan p i self j others acc = Some acc' ->
    StronglySorted lt (nbrs acc) ->
    (forall k : nat, k ∈ nbrs acc -> (k < j)%nat) ->
    StronglySorted lt (nbrs acc').
Proof.
  induction others as [| o rest IH]; intros j acc acc' E Hs Hb.
  - simpl in E. injection E as <-. exact Hs.
  - simpl in E. destruct (decide (j = i)) as [-> | Hne]; simpl in E.
    + apply (IH _ _ _ E Hs). intros k Hk. specialize (Hb k Hk). lia.
    + rewrite scan_body_Some in E. simpl in E.
      apply (IH _ _ _ E);
        destruct (Rlt_dec (distance_to self o) (perception_radius p));
        simpl.
      * apply StronglySorted_app_2; [| exact Hs | repeat constructor].
        intros x1 x2 H1 H2. apply list_elem_of_singleton in H2. subst x2.
        apply Hb, H1.
      * exact Hs.
      * intros k Hk. apply elem_of_app in Hk. destruct Hk as [Hk | Hk].
        -- specialize (Hb k Hk). lia.
        -- apply list_elem_of_singleton in Hk. lia.
      * intros k Hk. specialize (Hb k Hk). lia.
Qed.

Lemma flock_self_neighbors_iff (p : Params) (i : nat) (boids : list Boid)
    (self self' : Boid) :
  flock_self p i self boids = Some self' ->
  (forall k : nat,
     k ∈ neighbors self' <->
     k <> i /\
     exists other, boids !! k = Some other /\
                   distance_to self other < perception_radius p) /\
  StronglySorted lt (neighbors self').
Proof.
  intros Es.
  destruct (flock_self_spec p i self boids)
    as (acc & fs & fa & fc & s & Ea & Es0 & _ & _ & _ & _ & _ & _ & N & _).
  assert (s = self') as -> by congruence.
  rewrite N. split.
  - intros k. rewrite (scan_nbrs_iff _ _ _ _ _ _ _ Ea k). simpl.
    rewrite Nat.sub_0_r. split.
    + intros [H | (H1 & _ & H2)]; [apply elem_of_nil in H; contradiction |].
      split; assumption.
    + intros (H1 & H2). right. split; [exact H1 |]. split; [lia | exact H2].
  - apply (scan_nbrs_sorted _ _ _ _ _ _ _ Ea); simpl; [constructor |].
    intros k Hk. apply elem_of_nil in Hk. contradiction.
Qed.

(** After [flock], the neighbour list of the calling agent holds exactly the
    other agents of the flock that are closer than the perception radius,
    once each and in the order of the flock. *)
Theorem neighbors_are_the_perceived (p : Params) (i : nat)
    (boids : list Boid) (self : Boid) :
  boids !! i = Some self ->
  exists boids' self',
    flock p i boids = Some boids' /\
    boids' !! i = Some self' /\
    (forall k : nat,
       k ∈ neighbors self' <->
       k <> i /\
       exists other, boids !! k = Some other /\
                     distance_to self other < perception_radius p) /\
    StronglySorted lt (neighbors self').
Proof.
  intros Hs.
  destruct (flock_store p i boids) as (boids' & E & _ & _ & Hi).
  destruct (Hi self Hs) as (self' & Es & Hs').
  exists boids', self'. split; [exact E |]. split; [exact Hs' |].
  exact (flock_self_neighbors_iff _ _ _ _ _ Es).
Qed.

Lemma neighbors_are_the_perceived_witness :
  [boid_b_moved; boid_a] !! 1%nat = Some boid_a /\
  exists boids' self',
    flock default_params 1 [boid_b_moved; boid_a] = Some boids' /\
    boids' !! 1%nat = Some self' /\
    0%nat ∈ neighbors self' /\
    StronglySorted lt (neighbors self').
Proof.
  assert (D : distance_to boid_a boid_b_moved = 29).
  { rewrite (distance_along_x _ _ 29); simpl; real_side. }
  split; [reflexivity |].
  destruct (neighbors_are_the_perceived default_params 1
              [boid_b_moved; boid_a] boid_a eq_refl)
    as (boids' & self' & E & Es & Hk & Hsorted).
  exists boids', self'. split; [exact E |]. split; [exact Es |].
  split; [| exact Hsorted].
  apply Hk. split; [lia |]. exists boid_b_moved.
  split; [reflexivity |]. rewrite D. simpl. lra.
Defined.

(** On one and the same store perception is mutual: agent [j] is recorded
    as a neighbour of agent [i] exactly when [i] is recorded as a neighbour
    of [j]. *)
Theorem perception_symmetric (p : Params) (i j : nat) (boids : list Boid)
    (a b : Boid) :
  boids !! i = Some a -> boids !! j = Some b ->
  exists boids_i boids_j a' b',
    flock p i boids = Some boids_i /\ boids_i !! i = Some a' /\
    flock p j boids = Some boids_j /\ boids_j !! j = Some b' /\
    (j ∈ neighbors a' <-> i ∈ neighbors b').
Proof.
  intros Ha Hb.
  destruct (flock_store p i boids) as (bi & Ei & _ & _ & Hi).
  destruct (flock_store p j boids) as (bj & Ej & _ & _ & Hj).
  destruct (Hi a Ha) as (a' & Ea & Ha').
  destruct (Hj b Hb) as (b' & Eb & Hb').
  exists bi, bj, a', b'. repeat (split; [assumption |]).
  destruct (flock_self_neighbors_iff _ _ _ _ _ Ea) as (Na & _).
  destruct (flock_self_neighbors_iff _ _ _ _ _ Eb) as (Nb & _).
  rewrite Na, Nb. split.
  - intros (Hne & other & Ho & Hd).
    assert (other = b) as -> by congruence.
    split; [auto |]. exists a. split; [exact Ha |].
    rewrite distance_sym. exact Hd.
  - intros (Hne & other & Ho & Hd).
    assert (other = a) as -> by congruence.
    split; [auto |]. exists b. split; [exact Hb |].
    rewrite distance_sym. exact Hd.
Qed.

Lemma perception_symmetric_witness :
  exists boids_i boids_j a' b',
    flock default_params 0 [boid_b_moved; boid_a] = Some boids_i /\
    boids_i !! 0%nat = Some a' /\
    flock default_params 1 [boid_b_moved; boid_a] = Some boids_j /\
    boids_j !! 1%nat = Some b' /\
    (1%nat ∈ neighbors a' <-> 0%nat ∈ neighbors b').
Proof.
  exact (perception_symmetric default_params 0 1 [boid_b_moved; boid_a]
           boid_b_moved boid_a eq_refl eq_refl).
Defined.

(** ** An agent that perceives nobody *)

Lemma scan_nobody (p : Params) (i : nat) (self : Boid) (others : list Boid) :
  forall (j : nat) (acc : Scan),
    (forall (k : nat) (other : Boid),
       (j + k)%nat <> i -> others !! k = Some other ->
       perception_radius p <= distance_to self other) ->
    scan p i self j others acc = Some acc.
Proof.
  induction others as [| o rest IH]; intros j acc H; simpl; [reflexivity |].
  destruct (decide (j = i)) as [-> | Hne]; simpl.
  - apply IH. intros k other Hk Ho. apply (H (S k)); [lia | exact Ho].
  - rewrite scan_body_far.
    + simpl. apply IH. intros k other Hk Ho.
      apply (H (S k)); [lia | exact Ho].
    + apply (H 0%nat); [lia | reflexivity].
Qed.

Lemma flock_self_isolated (p : Params) (i : nat) (self : Boid)
    (boids : list Boid) :
  (forall (k : nat) (other : Boid),
     k <> i -> boids !! k = Some other ->
     perception_radius p <= distance_to self other) ->
  flock_self p i self boids = Some (set_neighbors self []).
Proof.
  intros H. apply flock_self_nobody. apply scan_nobody.
  intros k other Hk Ho. apply (H k other); [lia | exact Ho].
Qed.

(** When every other agent is at least the perception radius away, [flock]
    only empties the neighbour list of the calling agent: no force is
    applied, whatever the weights and the separation radius are. *)
Theorem flock_isolated (p : Params) (i : nat) (boids : list Boid)
    (self : Boid) :
  boids !! i = Some self ->
  (forall (k : nat) (other : Boid),
     k <> i -> boids !! k = Some other ->
     perception_radius p <= distance_to self other) ->
  flock p i boids = Some (<[i := set_neighbors self []]> boids).
Proof.
  intros Hs H. apply (flock_eq _ _ _ self); [exact Hs |].
  apply flock_self_isolated, H.
Qed.

Lemma flock_isolated_witness :
  flock default_params 0 [boid_a; boid_b]
  = Some (<[0%nat := set_neighbors boid_a []]> [boid_a; boid_b]).
Proof.
  apply (flock_isolated default_params 0 [boid_a; boid_b] boid_a eq_refl).
  intros k other Hk Ho.
  destruct k as [| [| k]]; [lia | | discriminate].
  injection Ho as <-.
  rewrite (distance_along_x _ _ 33); simpl; real_side.
Defined.

(** ** Where [limit] and [update] divide by zero *)

Lemma limit_None_iff (v : Vec) (m : R) :
  limit v m = None <-> norm v = 0 /\ m < 0.
Proof.
  unfold limit. destruct (Rgt_dec (norm v) m) as [G | N].
  - unfold vdiv. destruct (Req_dec_T (norm v) 0) as [E | Ne]; simpl.
    + split; [intros _ | reflexivity]. split; [exact E | lra].
    + split; [discriminate |]. intros [E _]. contradiction.
  - split; [discriminate |]. intros [E Hm]. lra.
Qed.

(** [limit] divides by zero exactly when the norm it computes is 0 and the
    bound is negative, and [update] exactly when the speed it computes (the
    norm of velocity plus acceleration) is 0 and the maximum speed is
    negative. *)
Theorem update_division_by_zero (p : Params) (b : Boid) (v : Vec) (m : R) :
  (limit v m = None <-> norm v = 0 /\ m < 0) /\
  (update p b = None <->
   norm (vadd (velocity b) (acceleration b)) = 0 /\ max_speed p < 0).
Proof.
  split; [apply limit_None_iff |].
  rewrite <- (limit_None_iff (vadd (velocity b) (acceleration b))
                (max_speed p)).
  unfold update. change (clamp_velocity p b)
    with (limit (vadd (velocity b) (acceleration b)) (max_speed p)).
  destruct (limit _ _); simpl; split; congruence.
Qed.

(** The computed norm can be 0 for a vector that is not zero: in float64
    [limit] applied to [1e-200, 0] and the bound -1 takes the dividing
    branch with the divisor 0. *)
Lemma limit_f64_zero_divisor :
  norm_f64 (mkFVec 1e-200%float 0%float) = 0%float /\
  (-1 <? norm_f64 (mkFVec 1e-200%float 0%float))%float = true /\
  is_nan (fy (limit_f64 (mkFVec 1e-200%float 0%float) (-1)%float)) = true.
Proof. repeat split; reflexivity. Qed.

(** ** What every frame keeps *)

Lemma update_effect (p : Params) (b b' : Boid) :
  0 <= max_speed p ->
  update p b = Some b' ->
  norm (vsub (position b') (position b)) <= max_speed p /\
  acceleration b' = mkVec 0 0 /\
  neighbors b' = neighbors b.
Proof.
  intros Hm E. destruct (clamp_velocity_bound p b Hm) as (v & Ev & Bv).
  rewrite (update_unfold _ _ _ Ev) in E. injection E as <-.
  pose proof (handle_boundaries_frame p
                (mkBoid (vadd (position b) v) v (mkVec 0 0) (neighbors b)))
    as (Hp & Ha & Hn).
  rewrite Hp, Ha, Hn. simpl. split; [| split; reflexivity].
  replace (vsub (vadd (position b) v) (position b)) with v
    by (apply vec_eq; simpl; ring).
  exact Bv.
Qed.

Lemma flock_self_position (p : Params) (i : nat) (self s' : Boid)
    (boids : list Boid) :
  flock_self p i self boids = Some s' ->
  position s' = position self /\ velocity s' = velocity self.
Proof.
  intros E.
  destruct (flock_self_spec p i self boids)
    as (acc & fs & fa & fc & s & _ & Es & _ & _ & _ & _ & P & V & _).
  assert (s = s') as -> by congruence. auto.
Qed.



Lemma update_division_by_zero_witness :
  update (mkParams (-1) 32 3 2.3 1.73 7.25 30)
         (mkBoid (mkVec 600 400) (mkVec 0 0) (mkVec 0 0) []) = None.
Proof.
  apply (proj2 (update_division_by_zero (mkParams (-1) 32 3 2.3 1.73 7.25 30)
                  (mkBoid (mkVec 600 400) (mkVec 0 0) (mkVec 0 0) [])
                  vzero 0)).
  split; [apply norm_eq; simpl; lra | simpl; lra].
Defined.

(** ** Agents that are far apart do not interact *)

Lemma lookup_take_drop_mix (fin boids : list Boid) (i k : nat) :
  (i <= length fin)%nat ->
  (take i fin ++ drop i boids) !! k =
  if decide (k < i)%nat then fin !! k else boids !! k.
Proof.
  intros Hi. destruct (decide (k < i)%nat) as [L | G].
  - rewrite lookup_app_l by (rewrite length_take; lia).
    apply lookup_take_lt, L.
  - rewrite lookup_app_r by (rewrite length_take; lia).
    rewrite length_take, lookup_drop. f_equal. lia.
Qed.

Lemma distance_after_move (self other other' : Boid) (m : R) :
  norm (vsub (position other') (position other)) <= m ->
  distance_to self other - m <= distance_to self other'.
Proof.
  intros H. unfold distance_to.
  pose proof (norm_triangle (vsub (position self) (position other'))
                (vsub (position other') (position other))) as T.
  replace (vadd (vsub (position self) (position other'))
                (vsub (position other') (position other)))
    with (vsub (position self) (position other)) in T
    by (apply vec_eq; simpl; ring).
  lra.
Qed.

Lemma frame_far_apart_aux (p : Params) (boids : list Boid) :
  0 <= max_speed p ->
  (forall (i j : nat) (a b : Boid),
     i <> j -> boids !! i = Some a -> boids !! j = Some b ->
     perception_radius p + max_speed p <= distance_to a b) ->
  exists boids',
    frame p boids = Some boids' /\
    length boids' = length boids /\
    forall (i : nat) (self : Boid),
      boids !! i = Some self ->
      exists self',
        update p (set_neighbors self []) = Some self' /\
        boids' !! i = Some self'.
Proof.
  intros Hm Hfar. unfold frame.
  destruct (frame_loop_seq p Hm (length boids) 0 boids)
    as (fin & Ef & Lf & _ & _ & Mf).
  exists fin. split; [exact Ef |]. split; [exact Lf |].
  intros i self Hs.
  pose proof (lookup_lt_Some _ _ _ Hs) as Hi.
  destruct (Mf i self) as (s1 & s2 & E1 & E2 & E3); [lia | exact Hs |].
  exists s2. split; [| exact E3].
  rewrite flock_self_isolated in E1.
  { injection E1 as <-. exact E2. }
  intros k other Hk Ho.
  rewrite lookup_take_drop_mix in Ho by lia.
  destruct (decide (k < i)%nat) as [L | G].
  - assert (Hbk : is_Some (boids !! k)) by (apply lookup_lt_is_Some; lia).
    destruct Hbk as [bk Hbk].
    destruct (Mf k bk) as (t1 & t2 & F1 & F2 & F3); [lia | exact Hbk |].
    assert (t2 = other) as -> by congruence.
    destruct (update_effect p t1 other Hm F2) as (D & _ & _).
    destruct (flock_self_position _ _ _ _ _ F1) as (P & _).
    rewrite P in D.
    pose proof (distance_after_move self bk other (max_speed p) D).
    pose proof (Hfar i k self bk ltac:(lia) Hs Hbk). lra.
  - pose proof (Hfar i k self other ltac:(lia) Hs Ho). lra.
Qed.

(** When any two agents are at least [perception_radius + max_speed] apart
    before the frame, the frame moves every agent as if it were alone: its
    new state is [update] of its old state with an empty neighbour list. *)
Theorem frame_far_apart (p : Params) (boids : list Boid) :
  0 <= max_speed p ->
  (forall (i j : nat) (a b : Boid),
     i <> j -> boids !! i = Some a -> boids !! j = Some b ->
     perception_radius p + max_speed p <= distance_to a b) ->
  exists boids',
    frame p boids = Some boids' /\
    forall (i : nat) (self : Boid),
      boids !! i = Some self ->
      exists self',
        update p (set_neighbors self []) = Some self' /\
        boids' !! i = Some self'.
Proof.
  intros Hm Hfar.
  destruct (frame_far_apart_aux p boids Hm Hfar) as (boids' & E & _ & H).
  exists boids'. auto.
Qed.

Lemma far_apart_pair :
  forall (i j : nat) (a b : Boid),
    i <> j -> [boid_a; boid_b_moved] !! i = Some a ->
    [boid_a; boid_b_moved] !! j = Some b ->
    perception_radius (mkParams 1 20 3 2.3 1.73 7.25 30)
    + max_speed (mkParams 1 20 3 2.3 1.73 7.25 30) <= distance_to a b.
Proof.
  intros i j a b Hij Ha Hb.
  destruct i as [| [| i]]; destruct j as [| [| j]];
    try discriminate; try lia;
    injection Ha as <-; injection Hb as <-;
    rewrite (distance_along_x _ _ 29); simpl; real_side.
Qed.

Lemma frame_far_apart_witness :
  0 <= max_speed (mkParams 1 20 3 2.3 1.73 7.25 30) /\
  exists boids' self',
    frame (mkParams 1 20 3 2.3 1.73 7.25 30) [boid_a; boid_b_moved]
    = Some boids' /\
    update (mkParams 1 20 3 2.3 1.73 7.25 30) (set_neighbors boid_a [])
    = Some self' /\
    boids' !! 0%nat = Some self'.
Proof.
  assert (Hm : 0 <= max_speed (mkParams 1 20 3 2.3 1.73 7.25 30))
    by (simpl; lra).
  split; [exact Hm |].
  destruct (frame_far_apart _ [boid_a; boid_b_moved] Hm far_apart_pair)
    as (boids' & E & H).
  destruct (H 0%nat boid_a eq_refl) as (self' & E1 & E2).
  exists boids', self'. auto.
Defined.

Lemma frame_far_apart_fmap (p : Params) (boids r : list Boid) :
  0 <= max_speed p ->
  (forall (i j : nat) (a b : Boid),
     i <> j -> boids !! i = Some a -> boids !! j = Some b ->
     perception_radius p + max_speed p <= distance_to a b) ->
  frame p boids = Some r ->
  r = (fun b => default b (update p (set_neighbors b []))) <$> boids.
Proof.
  intros Hm Hfar E.
  destruct (frame_far_apart_aux p boids Hm Hfar) as (boids' & E' & L & H).
  assert (boids' = r) as -> by congruence.
  apply list_eq. intros i. rewrite list_lookup_fmap.
  destruct (boids !! i) as [self |] eqn:Hs; simpl.
  - destruct (H i self Hs) as (self' & E1 & E2). rewrite E1. exact E2.
  - apply lookup_ge_None. apply lookup_ge_None in Hs. lia.
Qed.

(** When any two agents are at least [perception_radius + max_speed] apart,
    the frame does not depend on the order of the agents: two orderings of
    the same flock give the same positions and velocities. *)
Theorem frame_order_independent_far_apart (p : Params)
    (boids boids2 r r2 : list Boid) :
  0 <= max_speed p ->
  (forall (i j : nat) (a b : Boid),
     i <> j -> boids !! i = Some a -> boids !! j = Some b ->
     perception_radius p + max_speed p <= distance_to a b) ->
  boids ≡ₚ boids2 ->
  frame p boids = Some r -> frame p boids2 = Some r2 ->
  map kinematics r ≡ₚ map kinematics r2.
Proof.
  intros Hm Hfar Hperm E E2.
  assert (Hfar2 : forall (i j : nat) (a b : Boid),
             i <> j -> boids2 !! i = Some a -> boids2 !! j = Some b ->
             perception_radius p + max_speed p <= distance_to a b).
  { symmetry in Hperm. apply Permutation_inj in Hperm.
    destruct Hperm as (_ & f & Hinj & Hf).
    intros i j a b Hij Ha Hb. rewrite Hf in Ha, Hb.
    apply (Hfar (f i) (f j) a b); [| exact Ha | exact Hb].
    intros Heq. apply Hij, Hinj, Heq. }
  rewrite (frame_far_apart_fmap p boids r Hm Hfar E).
  rewrite (frame_far_apart_fmap p boids2 r2 Hm Hfar2 E2).
  apply fmap_Permutation, fmap_Permutation, Hperm.
Qed.

Lemma frame_order_independent_far_apart_witness :
  exists r r2,
    frame (mkParams 1 20 3 2.3 1.73 7.25 30) [boid_a; boid_b_moved]
    = Some r /\
    frame (mkParams 1 20 3 2.3 1.73 7.25 30) [boid_b_moved; boid_a]
    = Some r2 /\
    map kinematics r ≡ₚ map kinematics r2.
Proof.
  assert (Hm : 0 <= max_speed (mkParams 1 20 3 2.3 1.73 7.25 30))
    by (simpl; lra).
  destruct (frame_loop_seq _ Hm 2 0 [boid_a; boid_b_moved])
    as (r & E & _).
  destruct (frame_loop_seq _ Hm 2 0 [boid_b_moved; boid_a])
    as (r2 & E2 & _).
  exists r, r2. split; [exact E |]. split; [exact E2 |].
  exact (frame_order_independent_far_apart _ [boid_a; boid_b_moved]
           [boid_b_moved; boid_a] r r2 Hm far_apart_pair
           (Permutation_swap _ _ _) E E2).
Defined.

(** * Spawning *)

Lemma norm_unit_heading (angle : R) : norm (mkVec (cos angle) (sin angle)) = 1.
Proof.
  apply norm_eq; [lra |]. simpl.
  pose proof (sin2_cos2 angle) as H. unfold Rsqr in H. lra.
Qed.

Lemma Boid_init_speed (p : Params) (x y angle : R) :
  0 <= max_speed p -> norm (velocity (Boid_init p x y angle)) = max_speed p.
Proof.
  intros Hm. simpl velocity. rewrite norm_vscale by exact Hm.
  rewrite norm_unit_heading. ring.
Qed.

(** [create_boids(None)] is empty and [create_boids(n)] has [n] agents.
    Every agent it makes starts at the maximum speed with no acceleration
    and no neighbours; when the random coordinates are in the range asked
    of [randint] the agent starts outside the boundary margin, where
    [handle_boundaries] leaves it alone. *)
Theorem create_boids_spawn (p : Params) (n : nat) (draws : nat -> Draw)
    (b : Boid) :
  0 <= max_speed p ->
  b ∈ create_boids p (Some n) draws ->
  create_boids p None draws = [] /\
  length (create_boids p (Some n) draws) = n /\
  norm (velocity b) = max_speed p /\
  acceleration b = mkVec 0 0 /\ neighbors b = [] /\
  ((forall k : nat,
      (50 <= rand_x (draws k) <= 1200 - 50)%Z /\
      (50 <= rand_y (draws k) <= 800 - 50)%Z) ->
   handle_boundaries p b = b).
Proof.
  intros Hm Hb. split; [reflexivity |].
  split; [unfold create_boids; rewrite length_map, length_seq; reflexivity |].
  unfold create_boids in Hb. apply list_elem_of_fmap in Hb.
  destruct Hb as (k & -> & _).
  split; [apply Boid_init_speed, Hm |].
  split; [reflexivity |]. split; [reflexivity |].
  intros Hr. destruct (Hr k) as ((X1 & X2) & (Y1 & Y2)).
  apply IZR_le in X1, X2, Y1, Y2.
  rewrite minus_IZR in X2, Y2.
  set (s := Boid_init p _ _ _).
  pose proof (handle_boundaries_frame p s) as (Hp & Ha & Hn).
  pose proof (handle_boundaries_velocity p s) as Hv.
  destruct (handle_boundaries p s) as [ps vs acs ns].
  simpl in Hp, Ha, Hn, Hv. subst ps acs ns. unfold s, Boid_init.
  f_equal. rewrite Hv. unfold margin, WIDTH, HEIGHT. simpl.
  decide_reals. apply vec_eq; simpl; lra.
Qed.

Lemma create_boids_spawn_witness :
  let draws := fun _ : nat => mkDraw 600 400 0 in
  let b := Boid_init default_params 600 400 0 in
  0 <= max_speed default_params /\
  b ∈ create_boids default_params (Some 2%nat) draws /\
  length (create_boids default_params (Some 2%nat) draws) = 2%nat /\
  norm (velocity b) = max_speed default_params /\
  handle_boundaries default_params b = b.
Proof.
  intros draws b.
  assert (Hm : 0 <= max_speed default_params) by (simpl; lra).
  assert (Hb : b ∈ create_boids default_params (Some 2%nat) draws).
  { apply list_elem_of_fmap. exists 0%nat. split; [reflexivity |].
    simpl. left. }
  destruct (create_boids_spawn default_params 2 draws b Hm Hb)
    as (_ & L & S & _ & _ & H).
  split; [exact Hm |]. split; [exact Hb |]. split; [exact L |].
  split; [exact S |]. apply H. intros k. simpl. lia.
Defined.

(** * Sliders *)

Lemma py_div_Some (a b : R) : b <> 0 -> py_div a b = Some (a / b).
Proof.
  intros N. unfold py_div. destruct (Req_dec_T b 0); [contradiction |].
  reflexivity.
Qed.

Lemma py_div_None (a b : R) : py_div a b = None <-> b = 0.
Proof.
  unfold py_div. destruct (Req_dec_T b 0); split; congruence.
Qed.

Lemma ratio_bounds (a w : R) : 0 < w -> 0 <= a <= w -> 0 <= a / w <= 1.
Proof.
  intros Hw [H0 H1]. split.
  - apply Rmult_le_pos; [exact H0 |]. left. apply Rinv_0_lt_compat, Hw.
  - apply (Rmult_le_reg_r w); [exact Hw |].
    replace (a / w * w) with a by (field; lra). lra.
Qed.

Lemma handle_of_value_Some (x w : Z) (lo hi v : R) :
  lo <> hi ->
  handle_of_value x w lo hi v = Some (IZR x + (v - lo) / (hi - lo) * IZR w).
Proof.
  intros N. unfold handle_of_value. rewrite py_div_Some by lra. reflexivity.
Qed.

Lemma c_int_small (z : Z) :
  (-2147483648 <= z <= 2147483647)%Z -> c_int z = z.
Proof. intros H. unfold c_int. rewrite Z.mod_small by lia. lia. Qed.

(** [Slider(...)] raises exactly when [max_val = min_val].  With rectangle
    arguments that fit the 32-bit integers [pygame.Rect] stores, a width
    that is not negative, a range that is not empty and an initial value
    inside it, the new slider keeps the rectangle, is not dragged, holds
    the initial value, and its handle is on the track: at the left end for
    [min_val], at the right end for [max_val]. *)
Theorem Slider_init_spec (x y w h : Z) (lo hi v : R) :
  (Slider_init x y w h lo hi v = None <-> hi = lo) /\
  (lo < hi -> lo <= v <= hi ->
   (-2147483648 <= x <= 2147483647)%Z -> (0 <= w <= 2147483647)%Z ->
   exists s,
     Slider_init x y w h lo hi v = Some s /\
     rect_x s = x /\ rect_width s = w /\
     value s = v /\ dragging s = false /\
     IZR x <= handle_x s <= IZR (x + w) /\
     (v = lo -> handle_x s = IZR x) /\
     (v = hi -> handle_x s = IZR (x + w))).
Proof.
  split.
  - unfold Slider_init, handle_of_value.
    destruct (py_div (v - lo) (hi - lo)) as [q |] eqn:E; simpl.
    + split; [discriminate |]. intros ->.
      assert (py_div (v - lo) (lo - lo) = None) by (apply py_div_None; lra).
      congruence.
    + split; [intros _ | reflexivity]. apply py_div_None in E. lra.
  - intros Hr Hv Hx Hw. unfold Slider_init.
    rewrite (c_int_small x) by exact Hx.
    rewrite (c_int_small w) by lia.
    rewrite handle_of_value_Some by lra. simpl.
    eexists. split; [reflexivity |]. simpl.
    split; [reflexivity |]. split; [reflexivity |].
    split; [reflexivity |]. split; [reflexivity |].
    destruct Hw as [Hw _]. apply IZR_le in Hw. rewrite plus_IZR.
    pose proof (ratio_bounds (v - lo) (hi - lo) ltac:(lra) ltac:(lra))
      as [Q0 Q1].
    split; [split; nra |]. split.
    + intros ->. replace (lo - lo) with 0 by ring. unfold Rdiv. ring.
    + intros ->. replace ((hi - lo) / (hi - lo)) with 1 by (field; lra). ring.
Qed.

Lemma Slider_init_spec_witness :
  exists s,
    Slider_init 20 100 300 15 0.5 10 4 = Some s /\
    value s = 4 /\ IZR 20 <= handle_x s <= IZR (20 + 300).
Proof.
  destruct (proj2 (Slider_init_spec 20 100 300 15 0.5 10 4))
    as (s & E & _ & _ & V & _ & H & _); [lra | lra | lia | lia |].
  exists s. auto.
Defined.

Lemma drag_position_bounds (s : Slider) (mx : Z) :
  (0 <= rect_width s)%Z ->
  (0 <= Z.max (rect_x s) (Z.min mx (rect_x s + rect_width s)) - rect_x s
   <= rect_width s)%Z.
Proof. lia. Qed.

Lemma Slider_drag_Some (s : Slider) (mx my : Z) :
  dragging s = true -> (0 < rect_width s)%Z ->
  Slider_handle_event s MOUSEMOTION mx my =
  Some (set_value_handle s
          (min_val s
           + IZR (Z.max (rect_x s) (Z.min mx (rect_x s + rect_width s))
                  - rect_x s)
             / IZR (rect_width s) * (max_val s - min_val s))
          (IZR (Z.max (rect_x s) (Z.min mx (rect_x s + rect_width s)))),
        true).
Proof.
  intros Hd Hw. unfold Slider_handle_event. rewrite Hd.
  rewrite py_div_Some; [reflexivity |].
  apply IZR_lt in Hw. lra.
Qed.

Lemma drag_value_bounds (s : Slider) (mx : Z) :
  (0 < rect_width s)%Z -> min_val s <= max_val s ->
  min_val s
  <= min_val s
     + IZR (Z.max (rect_x s) (Z.min mx (rect_x s + rect_width s)) - rect_x s)
       / IZR (rect_width s) * (max_val s - min_val s)
  <= max_val s.
Proof.
  intros Hw Hr.
  pose proof (drag_position_bounds s mx ltac:(lia)) as [B0 B1].
  assert (W : 0 < IZR (rect_width s)) by (apply IZR_lt in Hw; exact Hw).
  apply IZR_le in B0, B1.
  pose proof (ratio_bounds _ _ W (conj B0 B1)) as [Q0 Q1].
  split; nra.
Qed.

Lemma drag_handle_bounds (s : Slider) (mx : Z) :
  (0 <= rect_width s)%Z ->
  IZR (rect_x s)
  <= IZR (Z.max (rect_x s) (Z.min mx (rect_x s + rect_width s)))
  <= IZR (rect_x s + rect_width s).
Proof. intros Hw. split; apply IZR_le; lia. Qed.

(** Dragging a slider whose track has positive width and whose range is
    not reversed: the call returns [True], the value stays within
    [min_val, max_val] and the handle on the track; a mouse at or left of
    the track gives [min_val], at or right of it [max_val]. *)
Theorem Slider_drag_range (s : Slider) (mx my : Z) :
  dragging s = true -> (0 < rect_width s)%Z -> min_val s <= max_val s ->
  exists s',
    Slider_handle_event s MOUSEMOTION mx my = Some (s', true) /\
    min_val s <= value s' <= max_val s /\
    IZR (rect_x s) <= handle_x s' <= IZR (rect_x s + rect_width s) /\
    ((mx <= rect_x s)%Z -> value s' = min_val s) /\
    ((rect_x s + rect_width s <= mx)%Z -> value s' = max_val s).
Proof.
  intros Hd Hw Hr. rewrite (Slider_drag_Some s mx my Hd Hw).
  eexists. split; [reflexivity |]. simpl.
  split; [apply drag_value_bounds; assumption |].
  split; [apply drag_handle_bounds; lia |].
  assert (W : 0 < IZR (rect_width s)) by (apply IZR_lt in Hw; exact Hw).
  split.
  - intros Hm.
    replace (Z.max (rect_x s) (Z.min mx (rect_x s + rect_width s))
             - rect_x s)%Z with 0%Z by lia.
    unfold Rdiv. ring.
  - intros Hm.
    replace (Z.max (rect_x s) (Z.min mx (rect_x s + rect_width s))
             - rect_x s)%Z with (rect_width s) by lia.
    replace (IZR (rect_width s) / IZR (rect_width s)) with 1
      by (field; lra).
    ring.
Qed.

Lemma Slider_drag_range_witness :
  let s := mkSlider 20 100 300 15 0.5 10 4 true 10 130 in
  dragging s = true /\ (0 < rect_width s)%Z /\ min_val s <= max_val s /\
  exists s',
    Slider_handle_event s MOUSEMOTION 5 0 = Some (s', true) /\
    value s' = 0.5.
Proof.
  intros s.
  assert (Hw : (0 < rect_width s)%Z) by (simpl; lia).
  assert (Hr : min_val s <= max_val s) by (simpl; lra).
  destruct (Slider_drag_range s 5 0 eq_refl Hw Hr)
    as (s' & E & _ & _ & Hl & _).
  split; [reflexivity |]. split; [exact Hw |]. split; [exact Hr |].
  exists s'. split; [exact E |]. apply Hl. simpl. lia.
Defined.

Lemma Slider_event_cases (s : Slider) (ev : Event) (mx my : Z) :
  (ev = MOUSEMOTION /\ dragging s = true) \/
  (exists d, Slider_handle_event s ev mx my = Some (set_dragging s d, false)
             /\ (d = dragging s \/ exists button, ev = MOUSEBUTTONDOWN button
                                  \/ ev = MOUSEBUTTONUP button) /\
             ~ (ev = MOUSEMOTION /\ dragging s = true)).
Proof.
  assert (Hid : set_dragging s (dragging s) = s) by (destruct s; reflexivity).
  destruct ev as [| k | button | button | |]; simpl;
    try (right; exists (dragging s); rewrite Hid;
         split; [reflexivity | split; [left; reflexivity | intros [? _]; discriminate]]).
  - right. destruct (button =? 1)%Z.
    + destruct (Rle_dec _ _).
      * exists true. split; [reflexivity |].
        split; [right; exists button; left; reflexivity |].
        intros [? _]; discriminate.
      * exists (dragging s). rewrite Hid. split; [reflexivity |].
        split; [left; reflexivity | intros [? _]; discriminate].
    + exists (dragging s). rewrite Hid. split; [reflexivity |].
      split; [left; reflexivity | intros [? _]; discriminate].
  - right. destruct (button =? 1)%Z.
    + exists false. split; [reflexivity |].
      split; [right; exists button; right; reflexivity |].
      intros [? _]; discriminate.
    + exists (dragging s). rewrite Hid. split; [reflexivity |].
      split; [left; reflexivity | intros [? _]; discriminate].
  - destruct (dragging s) eqn:Hd.
    + left. split; reflexivity.
    + right. exists false.
      rewrite Hid. split; [reflexivity |].
      split; [left; reflexivity |]. intros [_ H]. congruence.
Qed.

(** [handle_event] raises only for a drag on a track of width zero.  It
    returns [True] exactly for a mouse motion while the slider is dragged;
    whenever it returns [False] the value and the handle are as before.  It
    never changes the rectangle, the range or the handle radius, and only a
    button event changes whether the slider is dragged. *)
Theorem Slider_event_effect (s : Slider) (ev : Event) (mx my : Z) :
  (Slider_handle_event s ev mx my = None <->
   ev = MOUSEMOTION /\ dragging s = true /\ rect_width s = 0%Z) /\
  (forall (s' : Slider) (c : bool),
     Slider_handle_event s ev mx my = Some (s', c) ->
     (c = true <-> ev = MOUSEMOTION /\ dragging s = true) /\
     (c = false -> value s' = value s /\ handle_x s' = handle_x s) /\
     (rect_x s' = rect_x s /\ rect_y s' = rect_y s /\
      rect_width s' = rect_width s /\ rect_height s' = rect_height s /\
      min_val s' = min_val s /\ max_val s' = max_val s /\
      handle_radius s' = handle_radius s) /\
     ((forall button, ev <> MOUSEBUTTONDOWN button /\
                      ev <> MOUSEBUTTONUP button) ->
      dragging s' = dragging s)).
Proof.
  destruct (Slider_event_cases s ev mx my) as [[-> Hd] | (d & E & Hdd & Hn)].
  - unfold Slider_handle_event. rewrite Hd. split.
    + destruct (py_div _ _) as [q |] eqn:Eq; simpl.
      * split; [discriminate |]. intros (_ & _ & Hw).
        rewrite Hw in Eq. simpl in Eq.
        assert (py_div (IZR (Z.max (rect_x s) (Z.min mx (rect_x s + 0))
                             - rect_x s)) 0 = None)
          by (apply py_div_None; reflexivity).
        congruence.
      * split; [intros _ | reflexivity].
        apply py_div_None in Eq. apply eq_IZR in Eq. auto.
    + intros s' c E. destruct (py_div _ _) as [q |]; simpl in E;
        [| discriminate].
      injection E as <- <-. simpl.
      split; [tauto |]. split; [discriminate |]. split; [tauto |].
      intros _. exact Hd.
  - rewrite E. split.
    + split; [discriminate |]. intros (H1 & H2 & _). tauto.
    + intros s' c [= <- <-]. simpl.
      split; [split; [discriminate | tauto] |].
      split; [auto |]. split; [tauto |].
      intros Hb. destruct Hdd as [-> | (button & [-> | ->])];
        [reflexivity | |]; destruct (Hb button); congruence.
Qed.

Lemma Slider_event_effect_witness :
  let s := mkSlider 20 100 0 15 0.5 10 4 true 10 20 in
  MOUSEMOTION = MOUSEMOTION /\ dragging s = true /\ rect_width s = 0%Z /\
  Slider_handle_event s MOUSEMOTION 25 0 = None.
Proof.
  intros s. split; [reflexivity |]. split; [reflexivity |].
  split; [reflexivity |].
  apply (proj1 (Slider_event_effect s MOUSEMOTION 25 0)). auto.
Defined.

(** The handle is where the value puts it.  If
    [handle_x = rect.x + (value - min_val) / (max_val - min_val) *
    rect.width] (the expression of [Slider.__init__]) holds before an event,
    it holds after it: the value a drag computes from the mouse position
    maps back to that position. *)
Theorem Slider_handle_matches_value (s s' : Slider) (ev : Event)
    (mx my : Z) (c : bool) :
  (0 < rect_width s)%Z -> min_val s < max_val s ->
  handle_of_value (rect_x s) (rect_width s) (min_val s) (max_val s) (value s)
  = Some (handle_x s) ->
  Slider_handle_event s ev mx my = Some (s', c) ->
  handle_of_value (rect_x s') (rect_width s') (min_val s') (max_val s')
                  (value s')
  = Some (handle_x s').
Proof.
  intros Hw Hr Hc E.
  destruct (Slider_event_cases s ev mx my) as [[-> Hd] | (d & E' & _)].
  - rewrite (Slider_drag_Some s mx my Hd Hw) in E. injection E as <- <-.
    simpl. rewrite handle_of_value_Some by lra. f_equal.
    apply IZR_lt in Hw. rewrite minus_IZR. field. lra.
  - rewrite E' in E. injection E as <- <-. simpl. exact Hc.
Qed.

Lemma Slider_handle_matches_value_witness :
  let s := mkSlider 20 100 300 15 0.5 10 0.5 true 10 20 in
  exists s',
    Slider_handle_event s MOUSEMOTION 170 0 = Some (s', true) /\
    handle_of_value 20 300 0.5 10 (value s') = Some (handle_x s') /\
    handle_x s' = 170.
Proof.
  intros s.
  assert (Hw : (0 < rect_width s)%Z) by (simpl; lia).
  assert (Hr : min_val s < max_val s) by (simpl; lra).
  assert (Hc : handle_of_value (rect_x s) (rect_width s) (min_val s)
                 (max_val s) (value s) = Some (handle_x s)).
  { simpl. rewrite handle_of_value_Some by lra. f_equal. lra. }
  pose proof (Slider_drag_Some s 170 0 eq_refl Hw) as E.
  eexists. split; [exact E |]. split; [| reflexivity].
  exact (Slider_handle_matches_value s _ MOUSEMOTION 170 0 true Hw Hr Hc E).
Defined.

(** * The event loop of [main] *)

Lemma Slider_event_ok (s : Slider) (r : R * R) (ev : Event) (mx my : Z) :
  slider_for s r ->
  exists s' c,
    Slider_handle_event s ev mx my = Some (s', c) /\ slider_for s' r.
Proof.
  intros (Hok & Hlo & Hhi & Hgeo).
  destruct Hok as (Hw & Hr & Hv & Hh).
  destruct (Slider_event_cases s ev mx my) as [[-> Hd] | (d & E & _)].
  - rewrite (Slider_drag_Some s mx my Hd Hw). eexists. eexists.
    split; [reflexivity |].
    split; [| simpl; auto].
    split; [exact Hw |]. split; [exact Hr |]. simpl.
    split; [apply drag_value_bounds; [exact Hw | lra] |].
    apply drag_handle_bounds. lia.
  - rewrite E. exists (set_dragging s d), false. split; [reflexivity |].
    split; [| simpl; auto]. split; [exact Hw |]. split; [exact Hr |].
    simpl. auto.
Qed.

Lemma sliders_event_ok (ev : Event) (mx my : Z) (l : list Slider)
    (rs : list (R * R)) :
  Forall2 slider_for l rs ->
  exists l' c,
    sliders_handle_event ev mx my l = Some (l', c) /\
    Forall2 slider_for l' rs.
Proof.
  induction 1 as [| s r l rs Hs Hl IH]; simpl.
  - exists [], false. split; [reflexivity | constructor].
  - destruct (Slider_event_ok s r ev mx my Hs) as (s' & c & E & Hs').
    destruct IH as (l' & c' & E' & Hl').
    rewrite E, E'. simpl. eexists. eexists. split; [reflexivity |].
    constructor; assumption.
Qed.

Lemma params_of_sliders_ok (l : list Slider) :
  Forall2 slider_for l param_ranges ->
  exists d, params_of_sliders l = Some d /\ params_in_range d.
Proof.
  intros H. unfold param_ranges in H. invert_sliders H.
  eexists. split; [reflexivity |].
  unfold params_in_range. simpl.
  repeat match goal with
         | Hs : slider_for _ _ |- _ =>
             destruct Hs as ((_ & _ & ? & _) & ? & ? & _)
         end.
  simpl in *. repeat split; lra.
Qed.

Lemma reset_slider_for (s : Slider) (r : R * R) (v : R) :
  slider_for s r -> fst r <= v <= snd r ->
  slider_for
    (set_value_handle s v
       (IZR (rect_x s)
        + (v - min_val s) / (max_val s - min_val s) * IZR (rect_width s)))
    r.
Proof.
  intros ((Hw & Hr & Hv & Hh) & Hlo & Hhi & Hgeo) Hb.
  split; [| simpl; auto].
  split; [exact Hw |]. split; [exact Hr |]. simpl.
  split; [lra |].
  rewrite plus_IZR. apply IZR_lt in Hw.
  pose proof (ratio_bounds (v - min_val s) (max_val s - min_val s)
                ltac:(lra) ltac:(lra)) as [Q0 Q1].
  split; nra.
Qed.

Lemma reset_sliders_general (vals : list R) (l : list Slider)
    (rs : list (R * R)) :
  Forall2 slider_for l rs ->
  forall i : nat,
    Forall2 (fun v r => fst r <= v <= snd r) (drop i vals) rs ->
    exists l',
      reset_sliders vals i l = Some l' /\
      Forall2 slider_for l' rs /\
      map value l' = drop i vals /\
      map dragging l' = map dragging l.
Proof.
  induction 1 as [| s r l rs Hs Hl IH]; intros i Hv.
  - apply Forall2_nil_inv_r in Hv. exists []. simpl.
    split; [reflexivity |]. split; [constructor |]. auto.
  - apply Forall2_cons_inv_r in Hv.
    destruct Hv as (v & tl & Hb & Htl & Hd).
    assert (Hi : vals !! i = Some v).
    { rewrite <- (Nat.add_0_r i), <- lookup_drop, Hd. reflexivity. }
    assert (Hd' : drop (S i) vals = tl).
    { rewrite (drop_S _ _ _ Hi) in Hd. congruence. }
    rewrite <- Hd' in Htl. destruct (IH (S i) Htl) as (l' & E & F & V & D).
    simpl. rewrite Hi. simpl.
    assert (Hne : min_val s <> max_val s)
      by (destruct Hs as ((_ & ? & _) & _); lra).
    rewrite handle_of_value_Some by exact Hne. simpl. rewrite E. simpl.
    eexists. split; [reflexivity |]. split.
    + constructor; [apply reset_slider_for; assumption | exact F].
    + simpl. rewrite V, D, Hd, Hd'. auto.
Qed.

Lemma reset_sliders_ok (l : list Slider) :
  Forall2 slider_for l param_ranges ->
  exists l',
    reset_sliders (params_values default_params) 0 l = Some l' /\
    Forall2 slider_for l' param_ranges /\
    map value l' = params_values default_params /\
    map dragging l' = map dragging l.
Proof.
  intros H. apply (reset_sliders_general _ _ _ H 0%nat).
  unfold param_ranges. simpl.
  repeat (constructor; [simpl; lra |]). constructor.
Qed.

Lemma sliders_changed_iff (ev : Event) (mx my : Z) (l : list Slider) :
  forall (l' : list Slider) (c : bool),
    sliders_handle_event ev mx my l = Some (l', c) ->
    (c = true <->
     ev = MOUSEMOTION /\ exists s, s ∈ l /\ dragging s = true).
Proof.
  induction l as [| s l IH]; intros l' c E; simpl in E.
  - injection E as <- <-. split; [discriminate |].
    intros (_ & s & Hs & _). apply elem_of_nil in Hs. contradiction.
  - destruct (Slider_handle_event s ev mx my) as [[s1 c1] |] eqn:E1;
      simpl in E; [| discriminate].
    destruct (sliders_handle_event ev mx my l) as [[l1 c2] |] eqn:E2;
      simpl in E; [| discriminate].
    injection E as <- <-. specialize (IH l1 c2 eq_refl).
    assert (H1 : c1 = true <-> ev = MOUSEMOTION /\ dragging s = true).
    { destruct (Slider_event_cases s ev mx my) as [[-> Hd] | (d & E' & _ & Hn)].
      - unfold Slider_handle_event in E1. rewrite Hd in E1.
        destruct (py_div _ _); simpl in E1; [| discriminate].
        injection E1 as <- <-. tauto.
      - rewrite E' in E1. injection E1 as <- <-.
        split; [discriminate | tauto]. }
    rewrite orb_true_iff, H1, IH. split.
    + intros [[He Hd] | (He & s' & Hs' & Hd)].
      * split; [exact He |]. exists s. split; [left | exact Hd].
      * split; [exact He |]. exists s'. split; [right; exact Hs' | exact Hd].
    + intros (He & s' & Hs' & Hd). apply elem_of_cons in Hs'.
      destruct Hs' as [-> | Hs']; [left; auto |].
      right. split; [exact He |]. exists s'. auto.
Qed.

Lemma sliders_event_lookup (ev : Event) (mx my : Z) (l : list Slider) :
  forall (l' : list Slider) (c : bool) (k : nat) (s : Slider),
    sliders_handle_event ev mx my l = Some (l', c) ->
    l !! k = Some s ->
    exists s' c', Slider_handle_event s ev mx my = Some (s', c') /\
                  l' !! k = Some s'.
Proof.
  induction l as [| s0 l IH]; intros l' c k s E Hk; [discriminate |].
  simpl in E.
  destruct (Slider_handle_event s0 ev mx my) as [[s1 c1] |] eqn:E1;
    simpl in E; [| discriminate].
  destruct (sliders_handle_event ev mx my l) as [[l1 c2] |] eqn:E2;
    simpl in E; [| discriminate].
  injection E as <- <-. destruct k as [| k]; simpl in Hk.
  - injection Hk as <-. exists s1, c1. split; [exact E1 | reflexivity].
  - apply (IH l1 c2 k s eq_refl Hk).
Qed.

Lemma handle_key_and_click_ok (i : Input) (st : Sim) :
  sim_ok st ->
  exists st',
    handle_key_and_click i st = Some st' /\ sim_ok st' /\
    sim_module_params st' = sim_module_params st /\
    (sim_local_params st' = sim_local_params st \/
     in_event i = KEYDOWN K_r /\ sim_local_params st' = Some default_params).
Proof.
  intros (Hp & Hs). unfold handle_key_and_click.
  destruct (in_event i) as [| k | button | button | |];
    try (eexists; split; [reflexivity |];
         split; [split; assumption |]; split; [reflexivity | left; reflexivity]).
  - destruct k;
      try (eexists; split; [reflexivity |];
           split; [split; assumption |];
           split; [reflexivity | left; reflexivity]).
    cbn [local_params rebind_local_params sim_local_params sim_sliders].
    destruct (reset_sliders_ok _ Hs) as (l' & E & F & _).
    rewrite E. simpl. eexists. split; [reflexivity |].
    split; [split; assumption |]. split; [reflexivity |].
    right. split; reflexivity.
  - destruct (button =? 1)%Z; [destruct (_ || _) |];
      (eexists; split; [reflexivity |];
       split; [split; assumption |]; split; [reflexivity | left; reflexivity]).
Qed.

Lemma handle_input_ok (i : Input) (st : Sim) :
  sim_ok st ->
  exists st', handle_input i st = Some st' /\ sim_ok st'.
Proof.
  intros Hok. unfold handle_input.
  destruct (handle_key_and_click_ok i st Hok) as (st1 & E1 & (Hp & Hs) & _).
  rewrite E1. simpl.
  destruct (sliders_event_ok (in_event i) (mouse_x i) (mouse_y i) _ _ Hs)
    as (l' & c & E2 & Hl').
  rewrite E2. destruct c.
  - cbn [set_sim_sliders sim_sliders].
    destruct (params_of_sliders_ok l' Hl') as (d & Ed & Hd).
    rewrite Ed. simpl. eexists. split; [reflexivity |].
    unfold write_local_params. simpl.
    destruct (sim_local_params st1); split; assumption.
  - eexists. split; [reflexivity |]. split; assumption.
Qed.

Lemma handle_inputs_ok (l : list Input) :
  forall st : Sim,
    sim_ok st -> exists st', handle_inputs l st = Some st' /\ sim_ok st'.
Proof.
  induction l as [| i l IH]; intros st Hok; simpl; [eauto |].
  destruct (handle_input_ok i st Hok) as (st1 & E1 & Hok1).
  rewrite E1. simpl. apply IH, Hok1.
Qed.

Lemma main_iteration_ok (events : list Input) (st : Sim) :
  sim_ok st ->
  exists st', main_iteration events st = Some st' /\ sim_ok st'.
Proof.
  intros Hok. unfold main_iteration.
  destruct (handle_inputs_ok events st Hok) as (st1 & E1 & (Hp & Hs)).
  rewrite E1. simpl.
  assert (Hm : 0 <= max_speed (sim_module_params st1)).
  { destruct Hp as ((? & _) & _). lra. }
  destruct (frame_loop_seq (sim_module_params st1) Hm
              (length (sim_boids st1)) 0 (sim_boids st1)) as (l & El & _).
  fold (frame (sim_module_params st1) (sim_boids st1)) in El.
  rewrite El. simpl. eexists. split; [reflexivity |]. split; assumption.
Qed.

Lemma main_loop_ok (batches : list (list Input)) :
  forall st : Sim,
    sim_ok st -> exists st', main_loop batches st = Some st' /\ sim_ok st'.
Proof.
  induction batches as [| events rest IH]; intros st Hok; simpl; [eauto |].
  destruct (sim_running st); [| eauto].
  destruct (main_iteration_ok events st Hok) as (st1 & E1 & Hok1).
  rewrite E1. simpl. apply IH, Hok1.
Qed.

Lemma Slider_init_for (y : Z) (lo hi v : R) :
  lo < hi -> lo <= v <= hi -> (0 <= y <= 460)%Z ->
  exists s,
    Slider_init 20 y 300 15 lo hi v = Some s /\
    slider_for s (lo, hi) /\ dragging s = false /\ value s = v.
Proof.
  intros Hr Hv Hy. unfold Slider_init.
  rewrite (c_int_small y) by lia.
  change (c_int 20) with 20%Z. change (c_int 300) with 300%Z.
  change (c_int 15) with 15%Z.
  rewrite handle_of_value_Some by lra. simpl.
  eexists. split; [reflexivity |]. split; [| split; reflexivity].
  split; [| simpl; repeat split; lia].
  split; [simpl; lia |]. split; [exact Hr |]. simpl. split; [exact Hv |].
  pose proof (ratio_bounds (v - lo) (hi - lo) ltac:(lra) ltac:(lra))
    as [Q0 Q1].
  change (IZR (20 + 300)) with 320. split; nra.
Qed.

Lemma main_sliders_ok :
  exists l,
    main_sliders default_params = Some l /\
    Forall2 slider_for l param_ranges /\
    map value l = params_values default_params.
Proof.
  unfold main_sliders. simpl.
  destruct (Slider_init_for 100 0.5 10 4) as (s0 & E0 & F0 & _ & V0);
    [lra | lra | lia |].
  destruct (Slider_init_for 160 10 200 32) as (s1 & E1 & F1 & _ & V1);
    [lra | lra | lia |].
  destruct (Slider_init_for 220 0.1 5 3) as (s2 & E2 & F2 & _ & V2);
    [lra | lra | lia |].
  destruct (Slider_init_for 280 0.1 5 2.3) as (s3 & E3 & F3 & _ & V3);
    [lra | lra | lia |].
  destruct (Slider_init_for 340 0.1 5 1.73) as (s4 & E4 & F4 & _ & V4);
    [lra | lra | lia |].
  destruct (Slider_init_for 400 0.1 15 7.25) as (s5 & E5 & F5 & _ & V5);
    [lra | lra | lia |].
  destruct (Slider_init_for 460 10 100 30) as (s6 & E6 & F6 & _ & V6);
    [lra | lra | lia |].
  rewrite E0, E1, E2, E3, E4, E5, E6. simpl.
  eexists. split; [reflexivity |]. split.
  - unfold param_ranges. repeat (constructor; [assumption |]). constructor.
  - simpl. rewrite V0, V1, V2, V3, V4, V5, V6. reflexivity.
Qed.

Lemma main_init_ok (draws : nat -> Draw) :
  exists st,
    main_init draws = Some st /\ sim_ok st /\
    sim_boids st = [] /\ sim_local_params st = None /\
    sim_module_params st = default_params.
Proof.
  unfold main_init. destruct main_sliders_ok as (l & E & F & _).
  rewrite E. simpl. eexists. split; [reflexivity |].
  split; [| auto]. split; [| exact F].
  unfold params_in_range. simpl. lra.
Qed.

(** From the state [main] starts in, whatever the events, mouse positions
    and random draws are, the loop never divides by zero and never indexes a
    missing slider, there are always seven sliders, and the parameters the
    agents read stay within [param_ranges]. *)
Theorem main_never_fails (draws : nat -> Draw)
    (batches : list (list Input)) :
  exists st0 st,
    main_init draws = Some st0 /\
    main_loop batches st0 = Some st /\
    params_in_range (sim_module_params st) /\
    length (sim_sliders st) = 7%nat.
Proof.
  destruct (main_init_ok draws) as (st0 & E0 & Hok0 & _).
  destruct (main_loop_ok batches st0 Hok0) as (st & E & (Hp & Hs)).
  exists st0, st. split; [exact E0 |]. split; [exact E |].
  split; [exact Hp |].
  apply Forall2_length in Hs. rewrite Hs. reflexivity.
Qed.

(** ** Resetting the parameters *)

Lemma sliders_event_not_motion (ev : Event) (mx my : Z) (l : list Slider) :
  ev <> MOUSEMOTION ->
  forall (l' : list Slider) (c : bool),
    sliders_handle_event ev mx my l = Some (l', c) ->
    c = false /\ map value l' = map value l.
Proof.
  intros Hev. induction l as [| s l IH]; intros l' c E; simpl in E.
  - injection E as <- <-. auto.
  - destruct (Slider_handle_event s ev mx my) as [[s1 c1] |] eqn:E1;
      simpl in E; [| discriminate].
    destruct (sliders_handle_event ev mx my l) as [[l1 c2] |] eqn:E2;
      simpl in E; [| discriminate].
    injection E as <- <-. destruct (IH l1 c2 eq_refl) as (-> & Hv).
    destruct (Slider_event_cases s ev mx my) as [[-> _] | (d & E' & _)];
      [contradiction |].
    rewrite E' in E1. injection E1 as <- <-. simpl. rewrite Hv. auto.
Qed.

Lemma handle_input_detached (i : Input) (st : Sim) :
  sim_ok st -> sim_local_params st <> None ->
  exists st',
    handle_input i st = Some st' /\ sim_ok st' /\
    sim_module_params st' = sim_module_params st /\
    sim_local_params st' <> None.
Proof.
  intros Hok Hl. unfold handle_input.
  destruct (handle_key_and_click_ok i st Hok)
    as (st1 & E1 & (Hp & Hs) & Hm & Hl1).
  assert (Hl1' : sim_local_params st1 <> None).
  { destruct Hl1 as [-> | (_ & ->)]; [exact Hl | discriminate]. }
  rewrite E1. simpl.
  destruct (sliders_event_ok (in_event i) (mouse_x i) (mouse_y i) _ _ Hs)
    as (l' & c & E2 & Hl').
  rewrite E2. destruct c.
  - cbn [set_sim_sliders sim_sliders].
    destruct (params_of_sliders_ok l' Hl') as (d & Ed & Hd).
    rewrite Ed. simpl. eexists. split; [reflexivity |].
    unfold write_local_params. simpl.
    destruct (sim_local_params st1); [| contradiction]. simpl.
    split; [split; assumption |]. split; [exact Hm | discriminate].
  - eexists. split; [reflexivity |]. simpl.
    split; [split; assumption |]. split; [exact Hm | exact Hl1'].
Qed.

Lemma handle_inputs_detached (l : list Input) :
  forall st : Sim,
    sim_ok st -> sim_local_params st <> None ->
    exists st',
      handle_inputs l st = Some st' /\ sim_ok st' /\
      sim_module_params st' = sim_module_params st /\
      sim_local_params st' <> None.
Proof.
  induction l as [| i l IH]; intros st Hok Hl; simpl; [eauto |].
  destruct (handle_input_detached i st Hok Hl) as (st1 & E1 & Hok1 & Hm1 & Hl1).
  rewrite E1. simpl.
  destruct (IH st1 Hok1 Hl1) as (st2 & E2 & Hok2 & Hm2 & Hl2).
  exists st2. split; [exact E2 |]. split; [exact Hok2 |].
  split; [congruence | exact Hl2].
Qed.

Lemma main_loop_detached (batches : list (list Input)) :
  forall st : Sim,
    sim_ok st -> sim_local_params st <> None ->
    exists st',
      main_loop batches st = Some st' /\
      sim_module_params st' = sim_module_params st.
Proof.
  induction batches as [| events rest IH]; intros st Hok Hl; simpl; [eauto |].
  destruct (sim_running st); [| eauto].
  unfold main_iteration.
  destruct (handle_inputs_detached events st Hok Hl)
    as (st1 & E1 & (Hp & Hs) & Hm1 & Hl1).
  rewrite E1. simpl.
  assert (Hm : 0 <= max_speed (sim_module_params st1)).
  { destruct Hp as ((? & _) & _). lra. }
  destruct (frame_loop_seq (sim_module_params st1) Hm
              (length (sim_boids st1)) 0 (sim_boids st1)) as (l & El & _).
  fold (frame (sim_module_params st1) (sim_boids st1)) in El.
  rewrite El. simpl.
  destruct (IH (set_sim_boids st1 l)) as (st2 & E2 & Hm2);
    [split; assumption | exact Hl1 |].
  exists st2. split; [exact E2 |]. simpl in Hm2. congruence.
Qed.

(** Pressing R puts every slider at its default value, but the parameters
    the agents read are not changed by it, and from then on nothing changes
    them: [params = {...}] rebinds the name [params] that is local to
    [main], and the later slider writes go to that new dictionary. *)
Theorem reset_detaches_parameters (st : Sim) (i : Input)
    (batches : list (list Input)) :
  sim_ok st -> in_event i = KEYDOWN K_r ->
  exists st1 st2,
    handle_input i st = Some st1 /\
    map value (sim_sliders st1) = params_values default_params /\
    sim_module_params st1 = sim_module_params st /\
    sim_local_params st1 = Some default_params /\
    main_loop batches st1 = Some st2 /\
    sim_module_params st2 = sim_module_params st.
Proof.
  intros Hok Hev.
  assert (E1 : exists st1,
             handle_input i st = Some st1 /\ sim_ok st1 /\
             map value (sim_sliders st1) = params_values default_params /\
             sim_module_params st1 = sim_module_params st /\
             sim_local_params st1 = Some default_params).
  { destruct Hok as (Hp & Hs). unfold handle_input, handle_key_and_click.
    rewrite Hev.
    cbn [local_params rebind_local_params sim_local_params sim_sliders].
    destruct (reset_sliders_ok _ Hs) as (l1 & El1 & F1 & V1 & _).
    rewrite El1. simpl.
    destruct (sliders_event_ok (KEYDOWN K_r) (mouse_x i) (mouse_y i) _ _ F1)
      as (l2 & c & E2 & F2).
    rewrite E2.
    destruct (sliders_event_not_motion (KEYDOWN K_r) (mouse_x i) (mouse_y i)
                l1 ltac:(discriminate) l2 c E2) as (-> & V2).
    eexists. split; [reflexivity |]. simpl.
    split; [split; assumption |]. split; [congruence |]. auto. }
  destruct E1 as (st1 & E1 & Hok1 & V1 & M1 & L1).
  destruct (main_loop_detached batches st1 Hok1) as (st2 & E2 & M2);
    [rewrite L1; discriminate |].
  exists st1, st2. repeat (split; [assumption |]). congruence.
Qed.

Lemma reset_detaches_parameters_witness :
  exists st0 st1 st2,
    main_init (fun _ => mkDraw 600 400 0) = Some st0 /\
    handle_input (mkInput (KEYDOWN K_r) 0 0 (mkDraw 600 400 0)) st0
    = Some st1 /\
    sim_local_params st1 = Some default_params /\
    main_loop [[mkInput MOUSEMOTION 0 0 (mkDraw 600 400 0)]] st1 = Some st2 /\
    sim_module_params st2 = sim_module_params st0.
Proof.
  destruct (main_init_ok (fun _ => mkDraw 600 400 0))
    as (st0 & E0 & Hok0 & _).
  destruct (reset_detaches_parameters st0
              (mkInput (KEYDOWN K_r) 0 0 (mkDraw 600 400 0))
              [[mkInput MOUSEMOTION 0 0 (mkDraw 600 400 0)]] Hok0 eq_refl)
    as (st1 & st2 & E1 & _ & _ & L1 & E2 & M2).
  exists st0, st1, st2. auto.
Defined.

(** ** Slider drags and the parameters *)

(** As long as R has not been pressed, an event changes the parameters the
    agents read exactly when it is a mouse motion while some slider is
    dragged, and then every parameter is the value of its slider. *)
Theorem drag_writes_parameters (st : Sim) (i : Input) :
  sim_ok st -> sim_local_params st = None ->
  exists st',
    handle_input i st = Some st' /\
    ((in_event i = MOUSEMOTION /\
      exists s, s ∈ sim_sliders st /\ dragging s = true) ->
     params_of_sliders (sim_sliders st') = Some (sim_module_params st')) /\
    (~ (in_event i = MOUSEMOTION /\
        exists s, s ∈ sim_sliders st /\ dragging s = true) ->
     sim_module_params st' = sim_module_params st).
Proof.
  intros Hok Hl. unfold handle_input.
  destruct (handle_key_and_click_ok i st Hok)
    as (st1 & E1 & (Hp & Hs) & Hm & _).
  assert (Hmotion : in_event i = MOUSEMOTION -> st1 = st).
  { intros Hev. unfold handle_key_and_click in E1. rewrite Hev in E1.
    congruence. }
  rewrite E1. simpl.
  destruct (sliders_event_ok (in_event i) (mouse_x i) (mouse_y i) _ _ Hs)
    as (l' & c & E2 & Hl').
  rewrite E2.
  pose proof (sliders_changed_iff _ _ _ _ _ _ E2) as Hc.
  destruct c.
  - destruct (proj1 Hc eq_refl) as (Hev & Hdrag).
    rewrite (Hmotion Hev) in *.
    cbn [set_sim_sliders sim_sliders].
    destruct (params_of_sliders_ok l' Hl') as (d & Ed & Hd).
    rewrite Ed. simpl. eexists. split; [reflexivity |].
    unfold write_local_params. simpl. rewrite Hl. simpl.
    split; [intros _; exact Ed |].
    intros Hn. exfalso. apply Hn. split; assumption.
  - eexists. split; [reflexivity |]. simpl. split; [| intros _; exact Hm].
    intros (Hev & Hdrag). rewrite (Hmotion Hev) in Hc.
    assert (false = true) by (apply Hc; split; assumption). discriminate.
Qed.

Lemma drag_writes_parameters_witness :
  let s0 := mkSlider 20 100 300 15 0.5 10 4 true 10 130 in
  let rest :=
    [mkSlider 20 160 300 15 10 200 32 false 10 55;
     mkSlider 20 220 300 15 0.1 5 3 false 10 200;
     mkSlider 20 280 300 15 0.1 5 2.3 false 10 150;
     mkSlider 20 340 300 15 0.1 5 1.73 false 10 120;
     mkSlider 20 400 300 15 0.1 15 7.25 false 10 160;
     mkSlider 20 460 300 15 10 100 30 false 10 90] in
  let st := mkSim [] default_params None (s0 :: rest) true true in
  exists st',
    handle_input (mkInput MOUSEMOTION 320 0 (mkDraw 0 0 0)) st = Some st' /\
    params_of_sliders (sim_sliders st') = Some (sim_module_params st').
Proof.
  intros s0 rest st.
  assert (Hok : sim_ok st).
  { split; [unfold params_in_range; simpl; lra |].
    unfold st, s0, rest, param_ranges. simpl.
    repeat (constructor;
            [unfold slider_for, slider_ok; simpl;
             change (IZR (20 + 300)) with 320;
             repeat split; try lia; try lra |]).
    constructor. }
  destruct (drag_writes_parameters st
              (mkInput MOUSEMOTION 320 0 (mkDraw 0 0 0)) Hok eq_refl)
    as (st' & E & H & _).
  exists st'. split; [exact E |]. apply H.
  split; [reflexivity |]. exists s0. split; [left | reflexivity].
Defined.

(** ** Mouse clicks *)

Lemma sliders_event_button (button : Z) (mx my : Z) (l : list Slider) :
  forall (l' : list Slider) (c : bool),
    sliders_handle_event (MOUSEBUTTONDOWN button) mx my l = Some (l', c) ->
    c = false.
Proof.
  intros l' c E.
  apply (sliders_event_not_motion (MOUSEBUTTONDOWN button) mx my l
           ltac:(discriminate) l' c E).
Qed.

(** A left click outside the slider panel ([x > 350] or [y > 500]) adds
    one agent, at the position of the click, with the current maximum
    speed, no acceleration and no neighbours, after the agents already
    there.  A click inside the panel, or with another button, adds none. *)
Theorem click_spawns_outside_panel (st : Sim) (i : Input) (button : Z) :
  sim_ok st -> in_event i = MOUSEBUTTONDOWN button ->
  exists st',
    handle_input i st = Some st' /\
    (button = 1%Z -> (350 < mouse_x i)%Z \/ (500 < mouse_y i)%Z ->
     exists b,
       sim_boids st' = sim_boids st ++ [b] /\
       position b = mkVec (IZR (mouse_x i)) (IZR (mouse_y i)) /\
       norm (velocity b) = max_speed (sim_module_params st) /\
       acceleration b = mkVec 0 0 /\ neighbors b = []) /\
    (button <> 1%Z \/ ((mouse_x i <= 350)%Z /\ (mouse_y i <= 500)%Z) ->
     sim_boids st' = sim_boids st).
Proof.
  intros Hok Hev. pose proof Hok as (Hp & Hs).
  assert (Hms : 0 <= max_speed (sim_module_params st)).
  { destruct Hp as ((? & _) & _). lra. }
  unfold handle_input, handle_key_and_click. rewrite Hev.
  destruct (button =? 1)%Z eqn:Hb;
    [destruct ((mouse_y i >? 500)%Z || (mouse_x i >? 350)%Z) eqn:Ho |];
    simpl.
  - destruct (sliders_event_ok (MOUSEBUTTONDOWN button) (mouse_x i)
                (mouse_y i) _ _ Hs) as (l' & c & E2 & _).
    rewrite E2. rewrite (sliders_event_button _ _ _ _ _ _ E2).
    eexists. split; [reflexivity |]. simpl. split.
    + intros _ _. eexists. split; [reflexivity |].
      split; [reflexivity |].
      split; [apply Boid_init_speed, Hms |]. split; reflexivity.
    + intros [Hn | [Hx Hy]]; [apply Z.eqb_eq in Hb; contradiction |].
      apply orb_true_iff in Ho. destruct Ho as [Ho | Ho];
        apply Z.gtb_lt in Ho; lia.
  - destruct (sliders_event_ok (MOUSEBUTTONDOWN button) (mouse_x i)
                (mouse_y i) _ _ Hs) as (l' & c & E2 & _).
    rewrite E2. rewrite (sliders_event_button _ _ _ _ _ _ E2).
    eexists. split; [reflexivity |]. simpl. split; [| reflexivity].
    intros _ Hout. apply orb_false_iff in Ho. destruct Ho as [Hy Hx].
    rewrite Z.gtb_ltb, Z.ltb_ge in Hy, Hx. lia.
  - destruct (sliders_event_ok (MOUSEBUTTONDOWN button) (mouse_x i)
                (mouse_y i) _ _ Hs) as (l' & c & E2 & _).
    rewrite E2. rewrite (sliders_event_button _ _ _ _ _ _ E2).
    eexists. split; [reflexivity |]. simpl. split; [| reflexivity].
    intros Hone. apply Z.eqb_neq in Hb. contradiction.
Qed.

Lemma click_spawns_outside_panel_witness :
  exists st0 st' b,
    main_init (fun _ => mkDraw 0 0 0) = Some st0 /\
    handle_input (mkInput (MOUSEBUTTONDOWN 1) 600 400 (mkDraw 0 0 0)) st0
    = Some st' /\
    sim_boids st' = sim_boids st0 ++ [b] /\
    position b = mkVec 600 400.
Proof.
  destruct (main_init_ok (fun _ => mkDraw 0 0 0)) as (st0 & E0 & Hok0 & _).
  destruct (click_spawns_outside_panel st0
              (mkInput (MOUSEBUTTONDOWN 1) 600 400 (mkDraw 0 0 0)) 1
              Hok0 eq_refl) as (st' & E & H & _).
  destruct (H eq_refl) as (b & Hb & Hpos & _); [left; simpl; lia |].
  exists st0, st', b. auto.
Defined.

Lemma hit_within_radius (x y : R) : x * x + y * y <= 100 -> x <= 10 /\ y <= 10.
Proof. intros H. split; nra. Qed.

(** A click that starts the drag of a slider never adds an agent: every
    handle lies inside the panel that [main] keeps free of spawns. *)
Theorem grab_never_spawns (st : Sim) (i : Input) (button : Z) :
  sim_ok st -> in_event i = MOUSEBUTTONDOWN button ->
  exists st',
    handle_input i st = Some st' /\
    forall (k : nat) (s s' : Slider),
      sim_sliders st !! k = Some s -> sim_sliders st' !! k = Some s' ->
      dragging s = false -> dragging s' = true ->
      button = 1%Z /\ sim_boids st' = sim_boids st.
Proof.
  intros Hok Hev. pose proof Hok as (Hp & Hs).
  destruct (handle_input_ok i st Hok) as (st' & E & _).
  exists st'. split; [exact E |].
  intros k s s' Hk Hk' Hd Hd'.
  unfold handle_input, handle_key_and_click in E. rewrite Hev in E.
  assert (Hsl : exists st1,
             (if (button =? 1)%Z
              then if (mouse_y i >? 500)%Z || (mouse_x i >? 350)%Z
                   then Some (set_sim_boids st
                                (sim_boids st ++
                                 [Boid_init (sim_module_params st)
                                    (IZR (mouse_x i)) (IZR (mouse_y i))
                                    (rand_angle (in_draw i))]))
                   else Some st
              else Some st) = Some st1 /\
             sim_sliders st1 = sim_sliders st).
  { destruct (button =? 1)%Z; [destruct (_ || _) |]; eauto. }
  destruct Hsl as (st1 & E1 & Hsl). rewrite E1 in E. simpl in E.
  rewrite Hsl in E.
  destruct (sliders_handle_event _ _ _ _) as [[l' c] |] eqn:E2;
    [| discriminate].
  rewrite (sliders_event_button _ _ _ _ _ _ E2) in E. injection E as <-.
  simpl in Hk'.
  destruct (sliders_event_lookup _ _ _ _ _ _ k s E2 Hk)
    as (s'' & c' & Es & Hl').
  assert (s'' = s') as -> by congruence.
  destruct (Forall2_lookup_l _ _ _ _ _ Hs Hk) as (r & _ & Hfor).
  destruct Hfor as ((_ & _ & _ & Hh) & _ & _ & Hx & Hw & Hh' & Hy & Hrad).
  unfold Slider_handle_event in Es.
  destruct (button =? 1)%Z eqn:Hb; [| congruence].
  destruct (Rle_dec _ _) as [Hit | _]; [| congruence].
  split; [apply Z.eqb_eq, Hb |].
  rewrite Hrad, Hh' in Hit. change (IZR (10 * 10)) with 100 in Hit.
  apply hit_within_radius in Hit. destruct Hit as (Hx10 & Hy10).
  rewrite Hx, Hw in Hh. change (IZR (20 + 300)) with 320 in Hh.
  assert (Hmx : (mouse_x i <= 350)%Z).
  { apply le_IZR. lra. }
  assert (Hmy : (mouse_y i <= 500)%Z).
  { apply le_IZR.
    assert (IZR (rect_y s + 15 / 2) <= 467)
      by (apply IZR_le; change (15 / 2)%Z with 7%Z; lia).
    lra. }
  assert (Ho : (mouse_y i >? 500)%Z || (mouse_x i >? 350)%Z = false).
  { apply orb_false_iff. rewrite !Z.gtb_ltb, !Z.ltb_ge. lia. }
  rewrite Ho in E1. injection E1 as <-. reflexivity.
Qed.

Lemma handle_input_click_inside (st : Sim) (i : Input) (button : Z)
    (l' : list Slider) (c : bool) :
  in_event i = MOUSEBUTTONDOWN button ->
  (mouse_x i <= 350)%Z -> (mouse_y i <= 500)%Z ->
  sliders_handle_event (MOUSEBUTTONDOWN button) (mouse_x i) (mouse_y i)
    (sim_sliders st) = Some (l', c) ->
  handle_input i st = Some (set_sim_sliders st l').
Proof.
  intros Hev Hx Hy El. unfold handle_input, handle_key_and_click.
  rewrite Hev.
  assert (Ho : (mouse_y i >? 500)%Z || (mouse_x i >? 350)%Z = false).
  { apply orb_false_iff. rewrite !Z.gtb_ltb, !Z.ltb_ge. lia. }
  rewrite Ho.
  destruct (button =? 1)%Z; simpl; rewrite El;
    rewrite (sliders_event_button _ _ _ _ _ _ El); reflexivity.
Qed.

Lemma grab_never_spawns_witness :
  let s0 := mkSlider 20 100 300 15 0.5 10 4 false 10 130 in
  let rest :=
    [mkSlider 20 160 300 15 10 200 32 false 10 55;
     mkSlider 20 220 300 15 0.1 5 3 false 10 200;
     mkSlider 20 280 300 15 0.1 5 2.3 false 10 150;
     mkSlider 20 340 300 15 0.1 5 1.73 false 10 120;
     mkSlider 20 400 300 15 0.1 15 7.25 false 10 160;
     mkSlider 20 460 300 15 10 100 30 false 10 90] in
  let st := mkSim [boid_a] default_params None (s0 :: rest) true true in
  exists st' s',
    handle_input (mkInput (MOUSEBUTTONDOWN 1) 130 107 (mkDraw 0 0 0)) st
    = Some st' /\
    sim_sliders st' !! 0%nat = Some s' /\ dragging s' = true /\
    sim_boids st' = [boid_a].
Proof.
  intros s0 rest st.
  assert (Hok : sim_ok st).
  { split; [unfold params_in_range; simpl; lra |].
    unfold st, s0, rest, param_ranges. simpl.
    repeat (constructor;
            [unfold slider_for, slider_ok; simpl;
             change (IZR (20 + 300)) with 320;
             repeat split; try lia; try lra |]).
    constructor. }
  destruct (grab_never_spawns st
              (mkInput (MOUSEBUTTONDOWN 1) 130 107 (mkDraw 0 0 0)) 1
              Hok eq_refl) as (st' & E & H).
  assert (Hs0 : Slider_handle_event s0 (MOUSEBUTTONDOWN 1) 130 107
                = Some (set_dragging s0 true, false)).
  { unfold Slider_handle_event, s0. simpl.
    destruct (Rle_dec _ _) as [_ | N]; [reflexivity |].
    exfalso. apply N.
    replace (100 + 15 / 2)%Z with 107%Z by reflexivity.
    replace (10 * 10)%Z with 100%Z by reflexivity. lra. }
  assert (Hl : exists l c,
             sliders_handle_event (MOUSEBUTTONDOWN 1) 130 107 (s0 :: rest)
             = Some (set_dragging s0 true :: l, c)).
  { cbn [sliders_handle_event]. rewrite Hs0.
    destruct (sliders_event_ok (MOUSEBUTTONDOWN 1) 130 107 rest
                (tail param_ranges)) as (l & c & El & _).
    { inversion Hok as [_ Hf]. simpl in Hf.
      apply Forall2_cons_1 in Hf. apply Hf. }
    cbn [sliders_handle_event] in El. rewrite El. simpl. eauto. }
  destruct Hl as (l & c & El).
  assert (Hst' : sim_sliders st' !! 0%nat = Some (set_dragging s0 true)).
  { rewrite (handle_input_click_inside st
               (mkInput (MOUSEBUTTONDOWN 1) 130 107 (mkDraw 0 0 0)) 1 _ c
               eq_refl ltac:(simpl; lia) ltac:(simpl; lia) El) in E.
    injection E as <-. reflexivity. }
  exists st', (set_dragging s0 true). split; [exact E |].
  split; [exact Hst' |]. split; [reflexivity |].
  exact (proj2 (H 0%nat s0 (set_dragging s0 true) eq_refl Hst' eq_refl
                  eq_refl)).
Defined.

(** ** What an event does to the agents and to the loop *)

Lemma handle_input_split (i : Input) (st st' : Sim) :
  handle_input i st = Some st' ->
  exists st1,
    handle_key_and_click i st = Some st1 /\
    sim_boids st' = sim_boids st1 /\ sim_running st' = sim_running st1.
Proof.
  unfold handle_input. intros E.
  destruct (handle_key_and_click i st) as [st1 |]; simpl in E;
    [| discriminate].
  exists st1. split; [reflexivity |].
  destruct (sliders_handle_event _ _ _ _) as [[l c] |]; [| discriminate].
  destruct c.
  - destruct (params_of_sliders _) as [d |]; simpl in E; [| discriminate].
    injection E as <-. unfold write_local_params. simpl.
    destruct (sim_local_params st1); auto.
  - injection E as <-. auto.
Qed.

(** An event never alters an agent that is already there: it leaves the
    list of agents as it is, or appends one new agent (flying at the
    current maximum speed, without neighbours), or, for the key C, empties
    the list. *)
Theorem events_append_or_clear (st : Sim) (i : Input) :
  sim_ok st ->
  exists st',
    handle_input i st = Some st' /\
    (sim_boids st' = sim_boids st \/
     (exists b, sim_boids st' = sim_boids st ++ [b] /\
                norm (velocity b) = max_speed (sim_module_params st) /\
                acceleration b = mkVec 0 0 /\ neighbors b = []) \/
     (in_event i = KEYDOWN K_c /\ sim_boids st' = [])).
Proof.
  intros Hok. destruct (handle_input_ok i st Hok) as (st' & E & _).
  exists st'. split; [exact E |].
  destruct (handle_input_split i st st' E) as (st1 & E1 & -> & _).
  assert (Hms : 0 <= max_speed (sim_module_params st)).
  { destruct Hok as (((? & _) & _) & _). lra. }
  unfold handle_key_and_click in E1.
  destruct (in_event i) as [| k | button | button | |];
    try (injection E1 as <-; left; reflexivity).
  - destruct k; try (injection E1 as <-; left; reflexivity).
    + injection E1 as <-. right. left. eexists. split; [reflexivity |].
      split; [apply Boid_init_speed, Hms |]. split; reflexivity.
    + injection E1 as <-. right. right. split; reflexivity.
    + destruct (reset_sliders _ _ _); simpl in E1; [| discriminate].
      injection E1 as <-. left. reflexivity.
  - destruct (button =? 1)%Z; [destruct (_ || _) |];
      injection E1 as <-; try (left; reflexivity).
    right. left. eexists. split; [reflexivity |].
    split; [apply Boid_init_speed, Hms |]. split; reflexivity.
Qed.

Lemma events_append_or_clear_witness :
  exists st0 st' b,
    main_init (fun _ => mkDraw 0 0 0) = Some st0 /\
    handle_input (mkInput (KEYDOWN K_SPACE) 0 0 (mkDraw 600 400 0)) st0
    = Some st' /\
    sim_boids st' = [b] /\ norm (velocity b) = 4.
Proof.
  destruct (main_init_ok (fun _ => mkDraw 0 0 0))
    as (st0 & E0 & Hok0 & Hb0 & _ & Hm0).
  destruct (events_append_or_clear st0
              (mkInput (KEYDOWN K_SPACE) 0 0 (mkDraw 600 400 0)) Hok0)
    as (st' & E & H).
  assert (E' : handle_input
                 (mkInput (KEYDOWN K_SPACE) 0 0 (mkDraw 600 400 0)) st0
               = Some st') by exact E.
  destruct (handle_input_split _ _ _ E') as (st1 & E1 & Hb1 & _).
  injection E1 as <-. simpl in Hb1. rewrite Hb0 in Hb1. simpl in Hb1.
  exists st0, st', (Boid_init (sim_module_params st0) 600 400 0).
  split; [exact E0 |]. split; [exact E |]. split; [exact Hb1 |].
  destruct H as [H | [(b & Hb & Hn & _) | (Hc & _)]].
  - rewrite Hb1, Hb0 in H. discriminate.
  - rewrite Hb1, Hb0 in Hb. injection Hb as <-.
    rewrite Hn, Hm0. reflexivity.
  - discriminate.
Defined.

Lemma handle_input_running (i : Input) (st st' : Sim) :
  handle_input i st = Some st' ->
  (in_event i = QUIT \/ in_event i = KEYDOWN K_ESCAPE ->
   sim_running st' = false) /\
  (sim_running st = false -> sim_running st' = false).
Proof.
  intros E. destruct (handle_input_split i st st' E) as (st1 & E1 & _ & ->).
  unfold handle_key_and_click in E1.
  destruct (in_event i) as [| k | button | button | |].
  - injection E1 as <-. auto.
  - destruct k; try (injection E1 as <-; simpl; split;
                     [intros [H | H]; discriminate || reflexivity | auto]).
    destruct (reset_sliders _ _ _); simpl in E1; [| discriminate].
    injection E1 as <-. simpl. split; [intros [H | H]; discriminate | auto].
  - destruct (button =? 1)%Z; [destruct (_ || _) |]; injection E1 as <-;
      simpl; (split; [intros [H | H]; discriminate | auto]).
  - injection E1 as <-. split; [intros [H | H]; discriminate | auto].
  - injection E1 as <-. split; [intros [H | H]; discriminate | auto].
  - injection E1 as <-. split; [intros [H | H]; discriminate | auto].
Qed.

Lemma handle_inputs_running (l : list Input) :
  forall st st' : Sim,
    handle_inputs l st = Some st' ->
    (sim_running st = false \/
     exists i, i ∈ l /\ (in_event i = QUIT \/ in_event i = KEYDOWN K_ESCAPE)) ->
    sim_running st' = false.
Proof.
  induction l as [| i l IH]; intros st st' E H; simpl in E.
  - injection E as <-. destruct H as [H | (i & Hi & _)]; [exact H |].
    apply elem_of_nil in Hi. contradiction.
  - destruct (handle_input i st) as [st1 |] eqn:E1; simpl in E;
      [| discriminate].
    destruct (handle_input_running i st st1 E1) as (Hq & Hr).
    apply (IH st1 st' E).
    destruct H as [H | (j & Hj & Hjq)]; [left; apply Hr, H |].
    apply elem_of_cons in Hj. destruct Hj as [-> | Hj].
    + left. apply Hq, Hjq.
    + right. exists j. auto.
Qed.

(** A QUIT event or the ESC key does not stop the loop at once: the other
    events of the batch are still handled and the agents are still moved
    once; then the loop ends, whatever event batches would follow. *)
Theorem quit_ends_after_iteration (st : Sim) (events : list Input)
    (rest : list (list Input)) :
  sim_ok st -> sim_running st = true ->
  (exists i, i ∈ events /\
             (in_event i = QUIT \/ in_event i = KEYDOWN K_ESCAPE)) ->
  exists st',
    main_iteration events st = Some st' /\
    sim_running st' = false /\
    main_loop (events :: rest) st = Some st'.
Proof.
  intros Hok Hrun Hq.
  destruct (main_iteration_ok events st Hok) as (st' & E & _).
  assert (Hstop : sim_running st' = false).
  { unfold main_iteration in E.
    destruct (handle_inputs events st) as [st1 |] eqn:E1; simpl in E;
      [| discriminate].
    destruct (frame _ _); simpl in E; [| discriminate].
    injection E as <-. simpl.
    apply (handle_inputs_running events st st1 E1). right. exact Hq. }
  exists st'. split; [exact E |]. split; [exact Hstop |].
  simpl. rewrite Hrun, E. simpl.
  destruct rest; simpl; [reflexivity |]. rewrite Hstop. reflexivity.
Qed.

Lemma quit_ends_after_iteration_witness :
  exists st0 st',
    main_init (fun _ => mkDraw 0 0 0) = Some st0 /\
    main_loop [[mkInput QUIT 0 0 (mkDraw 0 0 0)];
               [mkInput (KEYDOWN K_SPACE) 0 0 (mkDraw 600 400 0)]] st0
    = Some st' /\
    sim_running st' = false.
Proof.
  destruct (main_init_ok (fun _ => mkDraw 0 0 0))
    as (st0 & E0 & Hok0 & _).
  assert (Hrun : sim_running st0 = true).
  { unfold main_init in E0. destruct (main_sliders _); simpl in E0;
      [| discriminate]. injection E0 as <-. reflexivity. }
  destruct (quit_ends_after_iteration st0
              [mkInput QUIT 0 0 (mkDraw 0 0 0)]
              [[mkInput (KEYDOWN K_SPACE) 0 0 (mkDraw 600 400 0)]]
              Hok0 Hrun) as (st' & _ & Hstop & E).
  { exists (mkInput QUIT 0 0 (mkDraw 0 0 0)). split; [left | left; reflexivity]. }
  exists st0, st'. auto.
Defined.
